(** * PoolWithFailoverBase: a connection pool with failover

    A shallow embedding of [PoolWithFailoverBase.h] (the pool that hands out
    connections to the replicas of one shard) and of the two profile events it
    raises, followed by the properties of its error decay, of its candidate
    ordering, of the retry loop and of the multi-replica acquisition.

    Conventions of the embedding:
    - [UInt64] and [UInt32] values are integers of [Z] with the wrap-around
      written out ([wrap64], [wrap32]); [Int64] priorities are integers of [Z];
    - [time_t] is an integer of [Z]: clock readings are seconds since the
      epoch, far from the limits of the 64-bit type, so differences of two
      readings are exact;
    - [size_t] indices and loop counters are natural numbers; a
      [std::vector] is a list read with [!!] and written with [<[i:=x]>] or
      [alter]; an access outside the vector, which the source does not check,
      and a division by zero make the operation undefined ([None]);
    - the mutex of [PoolsWithErrorCount] and the atomicity of the counters are
      not modelled: every operation runs to completion on its own;
    - the logger is not modelled;
    - running out of memory ([std::bad_alloc]) is not modelled; the
      [std::length_error] of [reserve], which depends on the requested size
      alone, is. *)

From stdpp Require Import base option numbers list sorting strings.

Local Open Scope Z_scope.

(** ** Machine integers *)

Definition wrap64 (z : Z) : Z := z mod 2 ^ 64.
Definition wrap32 (z : Z) : Z := z mod 2 ^ 32.

(** [sizeof(UInt64)], in bytes. *)
Definition sizeof_UInt64 : Z := 8.

(** [std::endl] written to a [std::stringstream]: a line feed. *)
Definition endl : string := String (Ascii.ascii_of_nat 10) EmptyString.

(** ** ResourceTracker *)

Module ResourceTracker.

Record t := mk { handles : list nat; unallocated_size : nat }.

(** The constructor: [handles[i] = i] for every [i < s]. *)
Definition create (s : nat) : t := mk (seq 0 s) s.

Definition getHandle (r : t) (i : nat) : option nat := handles r !! i.

Definition getUnallocatedSize (r : t) : nat := unallocated_size r.

(** [std::swap(handles[i], handles[unallocated_size - 1]); --unallocated_size].
    With [unallocated_size = 0] the index [unallocated_size - 1] wraps around
    and lies outside the vector. *)
Definition markAsAllocated (r : t) (i : nat) : option t :=
  match unallocated_size r with
  | O => None
  | S last =>
      x ← handles r !! i;
      y ← handles r !! last;
      Some (mk (<[last := x]> (<[i := y]> (handles r))) last)
  end.

(** The calls a client can make on a tracker. *)
Inductive op := GetHandle (i : nat) | GetUnallocatedSize | MarkAsAllocated (i : nat).

Definition step (r : t) (o : op) : option t :=
  match o with
  | GetHandle i => _ ← getHandle r i; Some r
  | GetUnallocatedSize => Some r
  | MarkAsAllocated i => markAsAllocated r i
  end.

Fixpoint run (r : t) (ops : list op) : option t :=
  match ops with
  | [] => Some r
  | o :: ops' => r' ← step r o; run r' ops'
  end.

(** The contract of the class: every index passed to [getHandle] or to
    [markAsAllocated] is below the unallocated size at that moment, [u]. *)
Fixpoint in_range (u : nat) (ops : list op) : bool :=
  match ops with
  | [] => true
  | GetHandle i :: ops' => (i <? u)%nat && in_range u ops'
  | GetUnallocatedSize :: ops' => in_range u ops'
  | MarkAsAllocated i :: ops' => (i <? u)%nat && in_range (u - 1) ops'
  end.

End ResourceTracker.

(** ** ProfileEvents *)

Module ProfileEvents.

(** Of the events of [APPLY_FOR_EVENTS], the two that the pool raises. *)
Inductive Event := DistributedConnectionFailTry | DistributedConnectionFailAtAll.

Definition Event_eqb (a b : Event) : bool :=
  match a, b with
  | DistributedConnectionFailTry, DistributedConnectionFailTry => true
  | DistributedConnectionFailAtAll, DistributedConnectionFailAtAll => true
  | _, _ => false
  end.

(** [counters]: one cell per event, initialized by zeros. *)
Definition initial : Event → N := λ _, 0%N.

(** Modelled from the spec: [ProfileEvents::increment] is declared in
    [ProfileEvents.h], which is not part of the sources at hand; the spec
    describes the counters as monotonically increasing, one step per call. *)
Definition increment (e : Event) (counters : Event → N) : Event → N :=
  λ e', if Event_eqb e' e then N.succ (counters e') else counters e'.

End ProfileEvents.

(** ** Settings and errors *)

(** The two fields of [DB::Settings] the pool reads, both [UInt64] settings. *)
Record Settings := {
  max_parallel_replicas : N;
  skip_unavailable_shards : N
}.

Inductive ErrorCode := ALL_CONNECTION_TRIES_FAILED | CANNOT_CLOCK_GETTIME.

Record NetException := { message : string; code : ErrorCode }.

(** A call either returns, or throws a [NetException], or throws the
    [std::length_error] of a [std::vector] that is asked for more room than
    it can ever have. *)
Inductive Outcome (A : Type) :=
  Return (a : A) | Throw (e : NetException) | Throw_length_error.
Arguments Return {A} a.
Arguments Throw {A} e.
Arguments Throw_length_error {A}.

(** ** PoolWithErrorCount::State *)

Record State := { priority : Z; error_count : Z; random : Z }.

(** [std::tie(...) < std::tie(...)]: the lexicographic order of tuples. *)
Definition compare (lhs rhs : State) : bool :=
  (priority lhs <? priority rhs)
  || (negb (priority rhs <? priority lhs)
      && ((error_count lhs <? error_count rhs)
          || (negb (error_count rhs <? error_count lhs)
              && (random lhs <? random rhs)))).

(** The order of the triples (priority, error count, random number), first
    component first: [a] is not after [b]. *)
Definition lex_le (a b : State) : Prop :=
  priority a < priority b
  ∨ (priority a = priority b
     ∧ (error_count a < error_count b
        ∨ (error_count a = error_count b ∧ random a ≤ random b))).

(** ** std::sort

    [std::sort] promises a permutation of its input in which no element is
    less, by the comparator, than an element before it; the order of
    equivalent elements is left open.  Insertion sort meets that contract, and
    the properties below use nothing else of it. *)

Section Sort.
Context {A : Type} (comp : A → A → bool).

Fixpoint sort_insert (x : A) (l : list A) : list A :=
  match l with
  | [] => [x]
  | y :: l' => if comp x y then x :: y :: l' else y :: sort_insert x l'
  end.

Fixpoint std_sort (l : list A) : list A :=
  match l with
  | [] => []
  | x :: l' => sort_insert x (std_sort l')
  end.

(** [y] is not less than [x]: what the contract asks of every [x] that
    stands before a [y]. *)
Definition not_after (x y : A) : Prop := comp y x = false.
End Sort.

(** ** What the pool takes from outside

    The C library ([time], [lrand48_r] and its [drand48_data]), the nested
    pools, and the pure virtual method [tryGet] that the derived class
    supplies.  [World] is everything outside the pool that these read or
    change: the clock, the network, the nested pools' own state.  [tryGet]
    receives the entry to fill and returns it with the text it wrote to its
    [fail_message] stream.  [max_size] is [std::vector<Entry>::max_size()],
    a constant of the C++ library and of the size of an entry. *)

Class Environment := {
  World : Type;
  time : World → Z * World;
  drand48_data : Type;
  lrand48_r : drand48_data → Z * drand48_data;
  NestedPoolPtr : Type;
  Entry : Type;
  empty_entry : Entry;
  max_size : N;
  tryGet : NestedPoolPtr → option Settings → Entry → World → bool * Entry * string * World
}.

Section PoolWithFailoverBase.
Context `{Env : Environment}.

(** *** PoolWithErrorCount

    The constructor seeds [rand_state] from the CPU time of the thread and
    the address of the object, so a pool can start with any [rand_state];
    the derived class may assign the priorities. *)

Record PoolWithErrorCount := {
  pool : NestedPoolPtr;
  state : State;
  rand_state : drand48_data
}.

Definition with_error_count (f : Z → Z) (p : PoolWithErrorCount) : PoolWithErrorCount :=
  {| pool := pool p;
     state := {| priority := priority (state p);
                 error_count := f (error_count (state p));
                 random := random (state p) |};
     rand_state := rand_state p |}.

(** [state.random = rand_res]: a [long int] stored into a [UInt32]. *)
Definition randomize (p : PoolWithErrorCount) : PoolWithErrorCount :=
  let '(rand_res, rs) := lrand48_r (rand_state p) in
  {| pool := pool p;
     state := {| priority := priority (state p);
                 error_count := error_count (state p);
                 random := wrap32 rand_res |};
     rand_state := rs |}.

Definition error_counts (l : list PoolWithErrorCount) : list Z :=
  (λ p, error_count (state p)) <$> l.

(** *** PoolsWithErrorCount *)

Record PoolsWithErrorCount := {
  pools : list PoolWithErrorCount;
  last_decrease_time : Z;
  decrease_error_period : Z
}.

(** [update] returns the copy of the states, the pools as it leaves them and
    the world after the clock was read.  [delta / decrease_error_period] is
    the integer division of C++, which truncates; its result is stored in a
    [size_t]. *)
Definition update (p : PoolsWithErrorCount) (w : World)
  : option (list State * PoolsWithErrorCount * World) :=
  let pools1 := randomize <$> pools p in
  let '(current_time, w') := time w in
  if bool_decide (last_decrease_time p ≠ 0) then
    let delta := current_time - last_decrease_time p in
    if bool_decide (0 ≤ delta) then
      if bool_decide (decrease_error_period p = 0) then None
      else
        let shift_amount := wrap64 (delta ÷ decrease_error_period p) in
        let last :=
          if bool_decide (shift_amount ≠ 0) then current_time
          else last_decrease_time p in
        let pools2 :=
          if bool_decide (sizeof_UInt64 ≤ shift_amount) then
            with_error_count (λ _, 0) <$> pools1
          else if bool_decide (shift_amount ≠ 0) then
            with_error_count (λ e, e ≫ shift_amount) <$> pools1
          else pools1 in
        Some (state <$> pools2,
              {| pools := pools2; last_decrease_time := last;
                 decrease_error_period := decrease_error_period p |},
              w')
    else
      Some (state <$> pools1,
            {| pools := pools1; last_decrease_time := last_decrease_time p;
               decrease_error_period := decrease_error_period p |},
            w')
  else
    Some (state <$> pools1,
          {| pools := pools1; last_decrease_time := current_time;
             decrease_error_period := decrease_error_period p |},
          w').

(** *** The pool object and the process around it *)

(** One call of [tryGet], as seen from outside: the try it belongs to
    (counted from 0, as [try_no]), the position in [nested_pools] of the
    pool that was asked, and what came back. *)
Record Probe := {
  probe_try_no : nat;
  probe_pool : nat;
  probe_ok : bool;
  probe_entry : Entry;
  probe_message : string
}.

(** The members of the pool, the global [ProfileEvents::counters], the world
    outside, and the record of the calls of [tryGet] made so far, oldest
    first.  The record is not a variable of the program: it is kept so that
    the order and the number of the calls can be stated. *)
Record Process := {
  nested_pools : PoolsWithErrorCount;
  max_tries : nat;
  counters : ProfileEvents.Event → N;
  world : World;
  probes : list Probe
}.

Record IndexedPoolWithErrorCount := {
  ptr_pool : nat;      (* [pool]: the element of [nested_pools] pointed to *)
  ptr_state : State;   (* [*state]: the element of [states] pointed to *)
  index : nat
}.

(** The first loop of [getResource], which fills [pool_ptrs]. *)
Definition make_pool_ptrs (resource_tracker : option ResourceTracker.t)
    (states : list State) (pools_size : nat)
  : option (list IndexedPoolWithErrorCount) :=
  mapM (λ i,
          pool_index ← match resource_tracker with
                       | Some rt => ResourceTracker.getHandle rt i
                       | None => Some i
                       end;
          st ← states !! pool_index;
          Some {| ptr_pool := pool_index; ptr_state := st; index := i |})
       (seq 0 pools_size).

Definition sort_pool_ptrs (pool_ptrs : list IndexedPoolWithErrorCount)
  : list IndexedPoolWithErrorCount :=
  std_sort (λ lhs rhs, compare (ptr_state lhs) (ptr_state rhs)) pool_ptrs.

(** [__sync_fetch_and_add(&pool_ptrs[i].pool->state.error_count, 1)]. *)
Definition add_error (pool_index : nat) (p : PoolsWithErrorCount) : PoolsWithErrorCount :=
  {| pools := alter (with_error_count (λ e, wrap64 (e + 1))) pool_index (pools p);
     last_decrease_time := last_decrease_time p;
     decrease_error_period := decrease_error_period p |}.

(** The inner loop of [getResource] for one value of [try_no], over what is
    left of [pool_ptrs].  The result is the record that succeeded, if one
    did, with the entry, the messages and the process as they are then. *)
Fixpoint try_pools (settings : option Settings) (try_no : nat)
    (pool_ptrs : list IndexedPoolWithErrorCount)
    (entry : Entry) (fail_messages : string) (m : Process)
  : option (option IndexedPoolWithErrorCount * Entry * string * Process) :=
  match pool_ptrs with
  | [] => Some (None, entry, fail_messages, m)
  | record :: rest =>
      p ← pools (nested_pools m) !! ptr_pool record;
      let '(ok, entry', fail_message, w') :=
        tryGet (pool p) settings entry (world m) in
      let called :=
        probes m ++ [{| probe_try_no := try_no; probe_pool := ptr_pool record;
                        probe_ok := ok; probe_entry := entry';
                        probe_message := fail_message |}] in
      if (ok : bool) then
        Some (Some record, entry', fail_messages,
              {| nested_pools := nested_pools m; max_tries := max_tries m;
                 counters := counters m; world := w'; probes := called |})
      else
        try_pools settings try_no rest entry'
          (fail_messages +:+ fail_message +:+ endl)
          {| nested_pools := add_error (ptr_pool record) (nested_pools m);
             max_tries := max_tries m;
             counters := ProfileEvents.increment
                           ProfileEvents.DistributedConnectionFailTry (counters m);
             world := w'; probes := called |}
  end.

(** The outer loop: [tries_left] more values of [try_no], from [try_no] on. *)
Fixpoint try_loop (settings : option Settings) (tries_left try_no : nat)
    (pool_ptrs : list IndexedPoolWithErrorCount)
    (entry : Entry) (fail_messages : string) (m : Process)
  : option (option IndexedPoolWithErrorCount * Entry * string * Process) :=
  match tries_left with
  | O => Some (None, entry, fail_messages, m)
  | S tries_left' =>
      '(found, entry', fail_messages', m') ←
        try_pools settings try_no pool_ptrs entry fail_messages m;
      match found with
      | Some record => Some (Some record, entry', fail_messages', m')
      | None =>
          try_loop settings tries_left' (S try_no) pool_ptrs entry' fail_messages' m'
      end
  end.

(** [getResource] returns its [bool] with the three things it writes
    through its arguments: the entry, the messages and the tracker. *)
Definition getResource (entry : Entry) (fail_messages : string)
    (resource_tracker : option ResourceTracker.t) (settings : option Settings)
    (m : Process)
  : option (bool * Entry * string * option ResourceTracker.t * Process) :=
  '(states, nested_pools', w') ← update (nested_pools m) (world m);
  let m1 := {| nested_pools := nested_pools'; max_tries := max_tries m;
               counters := counters m; world := w'; probes := probes m |} in
  let pools_size :=
    match resource_tracker with
    | Some rt => ResourceTracker.getUnallocatedSize rt
    | None => length (pools nested_pools')
    end in
  pool_ptrs ← make_pool_ptrs resource_tracker states pools_size;
  let pool_ptrs := sort_pool_ptrs pool_ptrs in
  '(found, entry', fail_messages', m2) ←
    try_loop settings (max_tries m1) 0 pool_ptrs entry fail_messages m1;
  match found with
  | Some record =>
      resource_tracker' ←
        match resource_tracker with
        | Some rt => Some <$> ResourceTracker.markAsAllocated rt (index record)
        | None => Some None
        end;
      Some (true, entry', fail_messages', resource_tracker', m2)
  | None =>
      Some (false, entry', fail_messages', resource_tracker,
            {| nested_pools := nested_pools m2; max_tries := max_tries m2;
               counters := ProfileEvents.increment
                             ProfileEvents.DistributedConnectionFailAtAll (counters m2);
               world := world m2; probes := probes m2 |})
  end.

Definition all_tries_failed (fail_messages : string) : NetException :=
  {| message := "All connection tries failed. Log: " +:+ endl +:+ endl
                +:+ fail_messages +:+ endl;
     code := ALL_CONNECTION_TRIES_FAILED |}.

Definition skip_unavailable_of (settings : option Settings) : bool :=
  match settings with
  | Some s => negb (skip_unavailable_shards s =? 0)%N
  | None => false
  end.

Definition max_connections_of (settings : option Settings) : N :=
  match settings with
  | Some s => max_parallel_replicas s
  | None => 1%N
  end.

Definition get (settings : option Settings) (m : Process)
  : option (Outcome Entry * Process) :=
  let skip_unavailable := skip_unavailable_of settings in
  '(ok, entry, fail_messages, _, m') ←
    getResource empty_entry EmptyString None settings m;
  if (ok : bool) then Some (Return entry, m')
  else if negb skip_unavailable then Some (Throw (all_tries_failed fail_messages), m')
  else Some (Return empty_entry, m').

(** The loop of [getMany]: [left] iterations remain, the next one has
    counter [i]. *)
Fixpoint getMany_loop (settings : option Settings) (skip_unavailable : bool)
    (left i : nat) (resource_tracker : option ResourceTracker.t)
    (connections : list Entry) (m : Process)
  : option (Outcome (list Entry) * Process) :=
  match left with
  | O => Some (Return connections, m)
  | S left' =>
      '(ok, entry, fail_messages, resource_tracker', m') ←
        getResource empty_entry EmptyString resource_tracker settings m;
      if (ok : bool) then
        getMany_loop settings skip_unavailable left' (S i) resource_tracker'
          (connections ++ [entry]) m'
      else if (i =? 0)%nat && negb skip_unavailable then
        Some (Throw (all_tries_failed fail_messages), m')
      else Some (Return connections, m')
  end.

(** [connections.reserve(max_connections)] throws [std::length_error] when
    [max_connections] is more than [max_size()], before the loop is entered;
    otherwise it changes nothing that can be observed.  The tracker, built
    first, has one [size_t] per pool, less than a pool takes, so its vector
    is never too long. *)
Definition getMany (settings : option Settings) (m : Process)
  : option (Outcome (list Entry) * Process) :=
  let resource_tracker := ResourceTracker.create (length (pools (nested_pools m))) in
  let max_connections := max_connections_of settings in
  let skip_unavailable := skip_unavailable_of settings in
  if (max_size <? max_connections)%N then Some (Throw_length_error, m)
  else
    getMany_loop settings skip_unavailable (N.to_nat max_connections) 0
      (Some resource_tracker) [] m.

(** *** Words for the statements *)

(** The text that a sequence of failure messages leaves in
    [fail_messages]: each one followed by [std::endl]. *)
Definition lines (l : list string) : string :=
  foldr (λ s acc, s +:+ endl +:+ acc) EmptyString l.


Definition probe_key (p : Probe) : nat * nat := (probe_try_no p, probe_pool p).

(** The calls of [tryGet] that succeeded. *)
Definition successes (ps : list Probe) : list Probe :=
  filter (λ p, probe_ok p = true) ps.

(** The calls of [tryGet] that [tries] rounds make when none succeeds: round
    after round, from [try_no] on, the pools in the order [order]. *)
Fixpoint schedule (tries try_no : nat) (order : list nat) : list (nat * nat) :=
  match tries with
  | O => []
  | S tries' => ((λ i, (try_no, i)) <$> order) ++ schedule tries' (S try_no) order
  end.

(** The pools a call of [getResource] may ask: all [n] of them without a
    tracker, else those whose handles are in the unallocated prefix. *)
Definition candidates (resource_tracker : option ResourceTracker.t) (n : nat) : list nat :=
  match resource_tracker with
  | Some rt => take (ResourceTracker.unallocated_size rt) (ResourceTracker.handles rt)
  | None => seq 0 n
  end.

(** A tracker for [n] pools as [getMany] keeps it. *)
Definition tracker_ok (n : nat) (resource_tracker : option ResourceTracker.t) : Prop :=
  match resource_tracker with
  | Some rt =>
      ResourceTracker.handles rt ≡ₚ seq 0 n
      ∧ (ResourceTracker.unallocated_size rt ≤ n)%nat
  | None => True
  end.

Definition pool_handles (m : Process) : list NestedPoolPtr :=
  pool <$> pools (nested_pools m).


(** The probe [p] records a call of [tryGet] on the pool at its position. *)
Definition genuine (handles : list NestedPoolPtr) (p : Probe) : Prop :=
  ∃ np settings entry w,
    handles !! probe_pool p = Some np
    ∧ (tryGet np settings entry w).1.1.1 = probe_ok p.

(** What a run of the retry loops that was to make the calls [keys] did:
    the calls [ps], of which [fails] failed, from process [m] to [m']. *)
Definition attempted (keys : list (nat * nat))
    (found : option IndexedPoolWithErrorCount) (entry' : Entry)
    (fail_messages fail_messages' : string) (m m' : Process)
    (ps fails : list Probe) : Prop :=
  probes m' = probes m ++ ps
  ∧ Forall (genuine (pool_handles m)) ps
  ∧ Forall (λ p, probe_ok p = false) fails
  ∧ pool_handles m' = pool_handles m
  ∧ decrease_error_period (nested_pools m') = decrease_error_period (nested_pools m)
  ∧ max_tries m' = max_tries m
  ∧ counters m' ProfileEvents.DistributedConnectionFailAtAll
    = counters m ProfileEvents.DistributedConnectionFailAtAll
  ∧ counters m' ProfileEvents.DistributedConnectionFailTry
    = (counters m ProfileEvents.DistributedConnectionFailTry
       + N.of_nat (length fails))%N
  ∧ fail_messages' = fail_messages +:+ lines (probe_message <$> fails)
  ∧ match found with
    | None => ps = fails ∧ probe_key <$> ps = keys
    | Some record =>
        ∃ p, ps = fails ++ [p]
             ∧ probe_ok p = true
             ∧ probe_entry p = entry'
             ∧ probe_pool p = ptr_pool record
             ∧ probe_key <$> ps `prefix_of` keys
    end.

(** What one call of [getResource] on [n] pools did: it returned [ok],
    after the calls [ps] of [tryGet], of which [fails] failed; it was to
    make the calls [keys] if none succeeded. *)
Definition resourced (n : nat) (keys : list (nat * nat)) (ok : bool) (entry' : Entry)
    (fail_messages fail_messages' : string)
    (resource_tracker resource_tracker' : option ResourceTracker.t)
    (m m' : Process) (ps fails : list Probe) : Prop :=
  probes m' = probes m ++ ps
  ∧ Forall (genuine (pool_handles m)) ps
  ∧ Forall (λ p, probe_ok p = false) fails
  ∧ pool_handles m' = pool_handles m
  ∧ decrease_error_period (nested_pools m') = decrease_error_period (nested_pools m)
  ∧ max_tries m' = max_tries m
  ∧ counters m' ProfileEvents.DistributedConnectionFailTry
    = (counters m ProfileEvents.DistributedConnectionFailTry
       + N.of_nat (length fails))%N
  ∧ fail_messages' = fail_messages +:+ lines (probe_message <$> fails)
  ∧ tracker_ok n resource_tracker'
  ∧ if ok then
      counters m' ProfileEvents.DistributedConnectionFailAtAll
      = counters m ProfileEvents.DistributedConnectionFailAtAll
      ∧ ∃ p, ps = fails ++ [p]
             ∧ probe_ok p = true
             ∧ probe_entry p = entry'
             ∧ probe_key <$> ps `prefix_of` keys
             ∧ match resource_tracker with
               | Some _ =>
                   ∃ rt', resource_tracker' = Some rt'
                          ∧ candidates resource_tracker n
                            ≡ₚ probe_pool p :: candidates (Some rt') n
               | None => resource_tracker' = None
               end
    else
      counters m' ProfileEvents.DistributedConnectionFailAtAll
      = (counters m ProfileEvents.DistributedConnectionFailAtAll + 1)%N
      ∧ ps = fails
      ∧ probe_key <$> ps = keys
      ∧ resource_tracker' = resource_tracker.

End PoolWithFailoverBase.

(** ** A concrete environment

    Replicas are numbered; a replica listed in [down] refuses every
    connection, the others accept and hand out an entry that names them.  The
    clock stands still unless the world is replaced, and the random numbers
    are those of the linear congruential generator that POSIX prescribes for
    [lrand48].  A vector of entries can have as many elements as fit below
    2^63 bytes at 16 bytes each. *)

Module Scenario.

Record world := { clock : Z }.

Definition lrand48 (x : Z) : Z * Z :=
  let x' := (25214903917 * x + 11) mod 2 ^ 48 in (x' ≫ 17, x').

Definition try_get (down : list nat) (p : nat) (_ : option Settings)
    (e : option nat) (w : world) : bool * option nat * string * world :=
  if bool_decide (p ∈ down) then (false, e, "conn refused", w)
  else (true, Some p, EmptyString, w).

Definition env (down : list nat) : Environment :=
  {| World := world;
     time := λ w, (clock w, w);
     drand48_data := Z;
     lrand48_r := lrand48;
     NestedPoolPtr := nat;
     Entry := option nat;
     empty_entry := None;
     max_size := (9223372036854775807 / 16)%N;
     tryGet := try_get down |}.

Definition replica {down : list nat} (id : nat) (prio errors : Z)
  : @PoolWithErrorCount (env down) :=
  @Build_PoolWithErrorCount (env down) id
    {| priority := prio; error_count := errors; random := 0 |} (Z.of_nat id).

Definition replicas {down : list nat} (l : list (@PoolWithErrorCount (env down)))
    (last period : Z) : @PoolsWithErrorCount (env down) :=
  @Build_PoolsWithErrorCount (env down) l last period.

Definition process (down : list nat) (l : list (@PoolWithErrorCount (env down)))
    (last period : Z) (tries : nat) (now : Z) : @Process (env down) :=
  @Build_Process (env down) (replicas l last period) tries ProfileEvents.initial
    {| clock := now |} [].

Definition settings (replicas_wanted skip : N) : option Settings :=
  Some {| max_parallel_replicas := replicas_wanted; skip_unavailable_shards := skip |}.

End Scenario.

(** The number of calls of [markAsAllocated] among the calls [ops]. *)
Fixpoint allocations (ops : list ResourceTracker.op) : nat :=
  match ops with
  | [] => 0
  | ResourceTracker.MarkAsAllocated _ :: ops' => S (allocations ops')
  | _ :: ops' => allocations ops'
  end.

(** ** Words for the error accounting *)

Section Accounting.
Context `{Env : Environment}.

(** What one recorded call of [tryGet] does to the pools: a failed call adds
    one to the error count of the pool it was made on. *)
Definition charge (l : list PoolWithErrorCount) (p : Probe) : list PoolWithErrorCount :=
  if probe_ok p then l
  else alter (with_error_count (λ e, wrap64 (e + 1))) (probe_pool p) l.

(** The number of failed calls on the pool at position [i]. *)
Definition fails_on (i : nat) (ps : list Probe) : nat :=
  length (filter (λ p, probe_pool p = i ∧ probe_ok p = false) ps).

End Accounting.

(** ** joinLines

    [std::replace(first, last, old_value, new_value)] on the characters of a
    string, and [joinLines], which uses it to put a space in the place of
    every line feed of a query before the query is written to the text
    log. *)

Fixpoint std_replace (old_value new_value : Ascii.ascii) (s : string) : string :=
  match s with
  | EmptyString => EmptyString
  | String c s' =>
      String (if Ascii.eqb c old_value then new_value else c)
             (std_replace old_value new_value s')
  end.

Definition line_feed : Ascii.ascii := Ascii.ascii_of_nat 10.
Definition space : Ascii.ascii := Ascii.ascii_of_nat 32.

Definition joinLines (query : string) : string :=
  let res := query in
  std_replace line_feed space res.

(** * Properties *)

(** ** ResourceTracker keeps its handles *)

Module ResourceTrackerFacts.
Import ResourceTracker.

Lemma markAsAllocated_Some (r : t) (i : nat) :
  (i < unallocated_size r)%nat →
  (unallocated_size r ≤ length (handles r))%nat →
  ∃ r', markAsAllocated r i = Some r'
        ∧ handles r' ≡ₚ handles r
        ∧ unallocated_size r' = (unallocated_size r - 1)%nat.
Proof.
  intros Hi Hu. unfold markAsAllocated.
  destruct (unallocated_size r) as [|last] eqn:E; [lia|].
  destruct (lookup_lt_is_Some_2 (handles r) i) as [x Hx]; [lia|].
  destruct (lookup_lt_is_Some_2 (handles r) last) as [y Hy]; [lia|].
  rewrite Hx, Hy. simpl. eexists. split; [reflexivity|]. simpl. split.
  - by apply Permutation_insert_swap.
  - lia.
Qed.

Lemma run_in_range (ops : list op) : ∀ r : t,
  (unallocated_size r ≤ length (handles r))%nat →
  in_range (unallocated_size r) ops = true →
  ∃ r', run r ops = Some r' ∧ handles r' ≡ₚ handles r.
Proof.
  induction ops as [|o ops IH]; intros r Hu Hr; simpl in *.
  - by exists r.
  - destruct o as [i| |i].
    + apply andb_true_iff in Hr as [Hi Hr]. apply Nat.ltb_lt in Hi.
      destruct (lookup_lt_is_Some_2 (handles r) i) as [x Hx]; [lia|].
      unfold step, getHandle. rewrite Hx. simpl. by apply IH.
    + by apply IH.
    + apply andb_true_iff in Hr as [Hi Hr]. apply Nat.ltb_lt in Hi.
      destruct (markAsAllocated_Some r i) as (r' & Hm & Hp & Hs); [done..|].
      unfold step. rewrite Hm. simpl. destruct (IH r') as (r'' & Hrun & Hp').
      * rewrite Hs. apply Permutation_length in Hp. lia.
      * by rewrite Hs.
      * exists r''. split; [done|]. by rewrite Hp'.
Qed.

End ResourceTrackerFacts.

(** C6. Whatever calls are made on a tracker created for [N] resources, as
    long as every index passed to [getHandle] and [markAsAllocated] is below
    the unallocated size of the moment, the calls are all defined and the
    handles are afterwards a rearrangement of [0, 1, ..., N-1]: none is lost,
    none appears twice.  A prefix of such a sequence of calls is such a
    sequence, so this holds after every call. *)
Theorem tracker_handles_permutation (N : nat) (ops : list ResourceTracker.op) :
  ResourceTracker.in_range N ops = true →
  ∃ r, ResourceTracker.run (ResourceTracker.create N) ops = Some r
       ∧ ResourceTracker.handles r ≡ₚ seq 0 N.
Proof.
  intros Hr.
  apply (ResourceTrackerFacts.run_in_range ops (ResourceTracker.create N)); simpl.
  - by rewrite length_seq.
  - done.
Qed.

Lemma tracker_handles_permutation_witness :
  ∃ r, ResourceTracker.run (ResourceTracker.create 4)
         [ResourceTracker.GetHandle 3; ResourceTracker.MarkAsAllocated 1;
          ResourceTracker.GetUnallocatedSize; ResourceTracker.MarkAsAllocated 0;
          ResourceTracker.GetHandle 1] = Some r
       ∧ ResourceTracker.handles r ≡ₚ seq 0 4.
Proof. apply (tracker_handles_permutation 4). reflexivity. Defined.

(** ** The decay of the error counts *)

Section UpdateFacts.
Context `{Env : Environment}.

Lemma error_counts_randomize (l : list PoolWithErrorCount) :
  error_counts (randomize <$> l) = error_counts l.
Proof.
  unfold error_counts. rewrite <- list_fmap_compose. apply list_fmap_ext.
  intros _ p _. simpl. unfold randomize. by destruct (lrand48_r (rand_state p)).
Qed.

Lemma error_counts_states (l : list PoolWithErrorCount) :
  error_count <$> (state <$> l) = error_counts l.
Proof. unfold error_counts. by rewrite <- list_fmap_compose. Qed.

Lemma error_counts_with (f : Z → Z) (l : list PoolWithErrorCount) :
  error_counts (with_error_count f <$> l) = f <$> error_counts l.
Proof. unfold error_counts. by rewrite <- !list_fmap_compose. Qed.

Lemma pools_randomize (l : list PoolWithErrorCount) :
  pool <$> (randomize <$> l) = pool <$> l.
Proof.
  rewrite <- list_fmap_compose. apply list_fmap_ext.
  intros _ p _. simpl. unfold randomize. by destruct (lrand48_r (rand_state p)).
Qed.

Lemma pools_with (f : Z → Z) (l : list PoolWithErrorCount) :
  pool <$> (with_error_count f <$> l) = pool <$> l.
Proof. by rewrite <- list_fmap_compose. Qed.

(** What [update] does, case by case, once the clock has been read. *)
Lemma update_cases (p : PoolsWithErrorCount) (w w' : World) (now : Z) :
  time w = (now, w') →
  let delta := now - last_decrease_time p in
  let shift_amount := wrap64 (delta ÷ decrease_error_period p) in
  update p w =
    if bool_decide (last_decrease_time p = 0) then
      Some (state <$> (randomize <$> pools p),
            Build_PoolsWithErrorCount (randomize <$> pools p) now
              (decrease_error_period p), w')
    else if bool_decide (delta < 0) then
      Some (state <$> (randomize <$> pools p),
            Build_PoolsWithErrorCount (randomize <$> pools p)
              (last_decrease_time p) (decrease_error_period p), w')
    else if bool_decide (decrease_error_period p = 0) then None
    else if bool_decide (shift_amount = 0) then
      Some (state <$> (randomize <$> pools p),
            Build_PoolsWithErrorCount (randomize <$> pools p)
              (last_decrease_time p) (decrease_error_period p), w')
    else if bool_decide (sizeof_UInt64 ≤ shift_amount) then
      Some (state <$> (with_error_count (λ _, 0) <$> (randomize <$> pools p)),
            Build_PoolsWithErrorCount
              (with_error_count (λ _, 0) <$> (randomize <$> pools p))
              now (decrease_error_period p), w')
    else
      Some (state <$> (with_error_count (λ e, e ≫ shift_amount) <$> (randomize <$> pools p)),
            Build_PoolsWithErrorCount
              (with_error_count (λ e, e ≫ shift_amount) <$> (randomize <$> pools p))
              now (decrease_error_period p), w').
Proof.
  intros Ht. unfold update. rewrite Ht. simpl.
  unfold sizeof_UInt64.
  repeat case_bool_decide; try done; try lia.
Qed.

Lemma update_defined (p : PoolsWithErrorCount) (w : World) :
  decrease_error_period p ≠ 0 → is_Some (update p w).
Proof.
  intros Hp. destruct (time w) as [now w'] eqn:Ht.
  rewrite (update_cases p w w' now Ht). simpl.
  repeat case_bool_decide; try done; eauto.
Qed.

Lemma update_shape (p p' : PoolsWithErrorCount) (w w' : World) (states : list State) :
  update p w = Some (states, p', w') →
  states = state <$> pools p'
  ∧ pool <$> pools p' = pool <$> pools p
  ∧ decrease_error_period p' = decrease_error_period p
  ∧ w' = (time w).2.
Proof.
  destruct (time w) as [now w1] eqn:Ht.
  rewrite (update_cases p w w1 now Ht). simpl.
  repeat case_bool_decide; intros; simplify_eq; simpl;
    rewrite ?pools_with, ?pools_randomize; done.
Qed.

End UpdateFacts.

(** The two cases of the decay that agree with a shift by [shift_amount]
    bits on a 64-bit counter: at 64 and above every count becomes zero, and
    below [sizeof(UInt64)] the counts are shifted. *)
Lemma update_decay_agrees `{Env : Environment}
    (p p' : PoolsWithErrorCount) (w w' w'' : World) (now : Z) (states : list State) :
  time w = (now, w') →
  last_decrease_time p ≠ 0 →
  0 ≤ now - last_decrease_time p →
  update p w = Some (states, p', w'') →
  let shift_amount := wrap64 ((now - last_decrease_time p) ÷ decrease_error_period p) in
  (64 ≤ shift_amount → error_counts (pools p') = (λ _, 0) <$> error_counts (pools p))
  ∧ (0 < shift_amount < 8 →
     error_counts (pools p') = (λ e, e ≫ shift_amount) <$> error_counts (pools p)).
Proof.
  intros Ht H0 Hd. rewrite (update_cases p w w' now Ht). simpl.
  unfold sizeof_UInt64.
  repeat case_bool_decide; intros; simplify_eq; simpl; try lia;
    (split; intros; try lia);
    by rewrite error_counts_with, error_counts_randomize.
Qed.

(** C1. The decay at a shift of 8: eighty seconds after the last decay, with
    a period of ten seconds, [update] leaves the error counts 256 and 1000 at
    zero, where a shift by eight bits leaves 1 and 3.  The test that guards
    the shift compares [shift_amount] with [sizeof(UInt64)], the size in
    bytes, so every shift from 8 to 63 clears the counts. *)
Theorem update_shift_8_zeroes :
  match @update (Scenario.env [])
          (Scenario.replicas [Scenario.replica 0 0 256; Scenario.replica 1 0 1000] 100 10)
          {| Scenario.clock := 180 |}
  with
  | Some (states, p', _) =>
      error_count <$> states = [0; 0] ∧ @error_counts (Scenario.env []) (pools p') = [0; 0]
  | None => False
  end
  ∧ (180 - 100) ÷ 10 = 8
  ∧ (λ e, e ≫ 8) <$> [256; 1000] = [1; 3].
Proof. by vm_compute. Qed.

(** C7. [update] changes [last_decrease_time] only to the time just read, and
    only if no decay time was recorded yet ([last_decrease_time] is 0) or the
    time since the recorded one is not negative and its quotient by the
    period is not zero.  When a decay time is recorded and the clock reads
    less than it, [update] is defined, it leaves [last_decrease_time] as it
    is, and it leaves every error count as it is. *)
Theorem last_decrease_time_advances `{Env : Environment}
    (p : PoolsWithErrorCount) (w w' : World) (now : Z) :
  time w = (now, w') →
  (∀ states p' w'',
     update p w = Some (states, p', w'') →
     last_decrease_time p' ≠ last_decrease_time p →
     last_decrease_time p' = now
     ∧ (last_decrease_time p = 0
        ∨ (0 ≤ now - last_decrease_time p
           ∧ (now - last_decrease_time p) ÷ decrease_error_period p ≠ 0)))
  ∧ (last_decrease_time p ≠ 0 →
     now < last_decrease_time p →
     ∃ p', update p w = Some (state <$> pools p', p', w')
           ∧ last_decrease_time p' = last_decrease_time p
           ∧ error_counts (pools p') = error_counts (pools p)).
Proof.
  intros Ht. rewrite (update_cases p w w' now Ht). simpl. split.
  - intros states p' w''.
    repeat case_bool_decide; intros; simplify_eq; simpl in *; try done;
      (split; [done|]); [by left|right..]; (split; [lia|]); intros Hq;
      match goal with H : wrap64 _ ≠ 0 |- _ => apply H end;
      by rewrite Hq.
  - intros H0 Hlt.
    rewrite bool_decide_eq_false_2 by done.
    rewrite bool_decide_eq_true_2 by lia.
    exists (Build_PoolsWithErrorCount (randomize <$> pools p)
              (last_decrease_time p) (decrease_error_period p)).
    simpl. split; [done|]. split; [done|].
    apply error_counts_randomize.
Qed.

Lemma last_decrease_time_advances_witness :
  (∀ states p' w'',
     @update (Scenario.env []) (Scenario.replicas [Scenario.replica 0 0 8] 100 10)
       {| Scenario.clock := 90 |} = Some (states, p', w'') →
     last_decrease_time p' ≠ 100 →
     last_decrease_time p' = 90
     ∧ (100 = 0 ∨ (0 ≤ 90 - 100 ∧ (90 - 100) ÷ 10 ≠ 0)))
  ∧ (100 ≠ 0 → 90 < 100 →
     ∃ p', @update (Scenario.env []) (Scenario.replicas [Scenario.replica 0 0 8] 100 10)
             {| Scenario.clock := 90 |}
           = Some (state <$> pools p', p', {| Scenario.clock := 90 |})
           ∧ last_decrease_time p' = 100
           ∧ error_counts (pools p') = [8]).
Proof.
  apply (@last_decrease_time_advances (Scenario.env [])
           (Scenario.replicas [Scenario.replica 0 0 8] 100 10)
           {| Scenario.clock := 90 |}
           {| Scenario.clock := 90 |} 90).
  reflexivity.
Defined.

(** C9. After one [update], a second one for which the clock reads less than
    [decrease_error_period] seconds past the recorded decay time, with the
    pools untouched in between, is defined and returns the same error counts
    as the first and leaves the same error counts in the pools. *)
Theorem decay_idempotent_within_period `{Env : Environment}
    (p0 p1 : PoolsWithErrorCount) (w0 w1 w w' : World)
    (states1 : list State) (now2 : Z) :
  update p0 w0 = Some (states1, p1, w1) →
  time w = (now2, w') →
  now2 - last_decrease_time p1 < decrease_error_period p1 →
  ∃ states2 p2,
    update p1 w = Some (states2, p2, w')
    ∧ error_count <$> states2 = error_count <$> states1
    ∧ error_counts (pools p2) = error_counts (pools p1).
Proof.
  intros H1 Ht Hlt. apply update_shape in H1 as (-> & _ & _ & _).
  rewrite (update_cases p1 w w' now2 Ht). simpl.
  assert (Hq : 0 ≤ now2 - last_decrease_time p1 →
               wrap64 ((now2 - last_decrease_time p1) ÷ decrease_error_period p1) = 0).
  { intros Hge. by rewrite Z.quot_small by lia. }
  repeat case_bool_decide; try lia;
    (eexists _, _; split; [reflexivity|]; simpl;
     by rewrite !error_counts_states, error_counts_randomize).
Qed.

Lemma decay_idempotent_within_period_witness :
  let p1 := Scenario.replicas
              [@Build_PoolWithErrorCount (Scenario.env []) 0%nat
                 {| priority := 0; error_count := 2; random := 0 |} 11] 125 10 in
  ∃ states2 p2,
    @update (Scenario.env []) p1 {| Scenario.clock := 134 |}
    = Some (states2, p2, {| Scenario.clock := 134 |})
    ∧ error_count <$> states2
      = error_count <$> [{| priority := 0; error_count := 2; random := 0 |}]
    ∧ error_counts (pools p2) = error_counts (pools p1).
Proof.
  intros p1.
  apply (@decay_idempotent_within_period (Scenario.env [])
           (Scenario.replicas [Scenario.replica 0 0 8] 100 10) p1
           {| Scenario.clock := 125 |}
           {| Scenario.clock := 125 |}
           {| Scenario.clock := 134 |}
           {| Scenario.clock := 134 |}
           [{| priority := 0; error_count := 2; random := 0 |}] 134).
  - reflexivity.
  - reflexivity.
  - simpl. lia.
Defined.

(** ** The comparator and the sort *)

Lemma compare_lex_le (a b : State) : compare b a = false ↔ lex_le a b.
Proof.
  unfold compare, lex_le.
  destruct (Z.ltb_spec (priority b) (priority a)),
           (Z.ltb_spec (priority a) (priority b)),
           (Z.ltb_spec (error_count b) (error_count a)),
           (Z.ltb_spec (error_count a) (error_count b)),
           (Z.ltb_spec (random b) (random a)); simpl; split; intros; try done; lia.
Qed.

Lemma compare_priority (a b : State) : priority a < priority b → compare a b = true.
Proof.
  intros Hlt. destruct (compare a b) eqn:E; [done|].
  apply compare_lex_le in E. unfold lex_le in E. lia.
Qed.

Lemma lex_le_trans (a b c : State) : lex_le a b → lex_le b c → lex_le a c.
Proof. unfold lex_le. lia. Qed.

Lemma StronglySorted_lookup_lt {A : Type} (R : relation A) (l : list A) :
  StronglySorted R l →
  ∀ (a b : nat) (x y : A), l !! a = Some x → l !! b = Some y → (a < b)%nat → R x y.
Proof.
  induction 1 as [|z l Hs IH Hz]; intros a b x y Ha Hb Hlt; [done|].
  destruct b as [|b]; [lia|]. simpl in Hb.
  destruct a as [|a]; simpl in Ha.
  - simplify_eq. rewrite Forall_forall in Hz. apply Hz.
    by eapply list_elem_of_lookup_2.
  - apply (IH a b); [done..|lia].
Qed.

Section SortFacts.
Context {A : Type} (comp : A → A → bool).

Hypothesis comp_asym : ∀ x y, comp x y = true → comp y x = false.
Hypothesis not_after_trans :
  ∀ x y z, not_after comp x y → not_after comp y z → not_after comp x z.

Lemma sort_insert_perm (x : A) (l : list A) : sort_insert comp x l ≡ₚ x :: l.
Proof.
  induction l as [|y l IH]; simpl; [done|].
  destruct (comp x y); [done|]. rewrite IH. apply Permutation_swap.
Qed.

Lemma std_sort_perm (l : list A) : std_sort comp l ≡ₚ l.
Proof.
  induction l as [|x l IH]; simpl; [done|].
  by rewrite sort_insert_perm, IH.
Qed.

Lemma sort_insert_sorted (x : A) (l : list A) :
  StronglySorted (not_after comp) l → StronglySorted (not_after comp) (sort_insert comp x l).
Proof.
  induction l as [|y l IH]; simpl; intros Hs.
  - repeat constructor.
  - apply StronglySorted_inv in Hs as [Hs Hy].
    destruct (comp x y) eqn:E.
    + constructor; [by constructor|].
      constructor; [by apply comp_asym|].
      eapply Forall_impl; [exact Hy|]. intros z Hz.
      apply (not_after_trans x y z); [by apply comp_asym|done].
    + constructor; [by apply IH|].
      rewrite sort_insert_perm. by constructor.
Qed.

Lemma std_sort_sorted (l : list A) : StronglySorted (not_after comp) (std_sort comp l).
Proof.
  induction l as [|x l IH]; simpl; [constructor|].
  by apply sort_insert_sorted.
Qed.

End SortFacts.

(** ** Strings *)

Lemma append_nil_r (s : string) : s +:+ EmptyString = s.
Proof.
  induction s as [|c s IH]; [done|].
  change (String c (s +:+ EmptyString) = String c s). by rewrite IH.
Qed.

Lemma append_assoc (s1 s2 s3 : string) : (s1 +:+ s2) +:+ s3 = s1 +:+ s2 +:+ s3.
Proof.
  induction s1 as [|c s1 IH]; [done|].
  change (String c ((s1 +:+ s2) +:+ s3) = String c (s1 +:+ s2 +:+ s3)).
  by rewrite IH.
Qed.

(** ** The retry loops *)

Section LoopFacts.
Context `{Env : Environment}.

Lemma lines_app (l1 l2 : list string) : lines (l1 ++ l2) = lines l1 +:+ lines l2.
Proof.
  induction l1 as [|s l1 IH]; simpl; [done|].
  by rewrite IH, !append_assoc.
Qed.


Lemma pool_handles_add_error (i : nat) (p : PoolsWithErrorCount) :
  pool <$> pools (add_error i p) = pool <$> pools p.
Proof.
  unfold add_error. simpl. apply list_eq. intros j.
  rewrite !list_lookup_fmap. destruct (decide (i = j)) as [->|].
  - rewrite list_lookup_alter_eq. by destruct (pools p !! j).
  - by rewrite list_lookup_alter_ne.
Qed.

Lemma attempted_nil (entry : Entry) (fail_messages : string) (m : Process) :
  attempted [] None entry fail_messages fail_messages m m [] [].
Proof.
  unfold attempted. simpl. rewrite app_nil_r, append_nil_r, N.add_0_r.
  repeat split; done.
Qed.

(** A run in which every call failed, followed by another run. *)
Lemma attempted_app (keys1 keys2 : list (nat * nat))
    (found : option IndexedPoolWithErrorCount) (e1 e2 : Entry)
    (fm0 fm1 fm2 : string) (m0 m1 m2 : Process) (ps1 fails1 ps2 fails2 : list Probe) :
  attempted keys1 None e1 fm0 fm1 m0 m1 ps1 fails1 →
  attempted keys2 found e2 fm1 fm2 m1 m2 ps2 fails2 →
  attempted (keys1 ++ keys2) found e2 fm0 fm2 m0 m2 (ps1 ++ ps2) (fails1 ++ fails2).
Proof.
  intros (Hp1 & Hg1 & Hf1 & Hh1 & Hd1 & Ht1 & Ha1 & Hc1 & Hm1 & <- & Hk1)
         (Hp2 & Hg2 & Hf2 & Hh2 & Hd2 & Ht2 & Ha2 & Hc2 & Hm2 & Hfound).
  unfold attempted.
  rewrite Hp2, Hp1, Hh2, Hh1, Hd2, Hd1, Ht2, Ht1, Ha2, Ha1, Hc2, Hc1, Hm2, Hm1.
  rewrite Hh1 in Hg2.
  rewrite length_app, fmap_app, lines_app, append_assoc, app_assoc, Nat2N.inj_add.
  repeat split; try done.
  - by apply Forall_app.
  - by apply Forall_app.
  - lia.
  - destruct found as [record|].
    + destruct Hfound as (p & Hps & Hok & He & Hpl & Hpre).
      exists p. split; [by rewrite Hps, app_assoc|].
      repeat split; try done.
      rewrite fmap_app, Hk1. by apply prefix_app.
    + destruct Hfound as [Hps <-]. split; [by rewrite Hps|].
      by rewrite fmap_app, Hk1.
Qed.

(** A run that found a pool was to make more calls after it. *)
Lemma attempted_more (keys keys' : list (nat * nat))
    (record : IndexedPoolWithErrorCount) (e : Entry)
    (fm fm' : string) (m m' : Process) (ps fails : list Probe) :
  attempted keys (Some record) e fm fm' m m' ps fails →
  attempted (keys ++ keys') (Some record) e fm fm' m m' ps fails.
Proof.
  unfold attempted. intros (?&?&?&?&?&?&?&?&?& p &?&?&?&?& Hpre).
  repeat split; try done. exists p. repeat split; try done.
  by apply prefix_app_r.
Qed.

Lemma try_pools_spec (settings : option Settings) (try_no : nat)
    (pool_ptrs : list IndexedPoolWithErrorCount) :
  ∀ (entry : Entry) (fail_messages : string) (m : Process),
    Forall (λ record, (ptr_pool record < length (pool_handles m))%nat) pool_ptrs →
    ∃ found entry' fail_messages' m' ps fails,
      try_pools settings try_no pool_ptrs entry fail_messages m
      = Some (found, entry', fail_messages', m')
      ∧ attempted ((λ record, (try_no, ptr_pool record)) <$> pool_ptrs)
          found entry' fail_messages fail_messages' m m' ps fails
      ∧ (∀ record, found = Some record → record ∈ pool_ptrs).
Proof.
  induction pool_ptrs as [|record rest IH]; intros entry fail_messages m Hin.
  - exists None, entry, fail_messages, m, [], []. simpl.
    split; [done|]. split; [apply attempted_nil|done].
  - apply Forall_cons in Hin as [Hrec Hrest].
    unfold pool_handles in Hrec. rewrite length_fmap in Hrec.
    destruct (lookup_lt_is_Some_2 _ _ Hrec) as [p Hp].
    simpl. rewrite Hp. simpl.
    destruct (tryGet (pool p) settings entry (world m))
      as [[[ok entry1] fail_message] w1] eqn:Htry.
    set (probe := {| probe_try_no := try_no; probe_pool := ptr_pool record;
                     probe_ok := ok; probe_entry := entry1;
                     probe_message := fail_message |}).
    assert (Hgen : genuine (pool_handles m) probe).
    { exists (pool p), settings, entry, (world m). split.
      - simpl. unfold pool_handles. by rewrite list_lookup_fmap, Hp.
      - simpl. by rewrite Htry. }
    destruct ok.
    + eexists (Some record), entry1, fail_messages, _, [probe], [].
      split; [reflexivity|]. split.
      * unfold attempted. simpl. rewrite append_nil_r, N.add_0_r.
        repeat split; try done.
        -- by constructor.
        -- exists probe. repeat split; try done.
           by apply prefix_cons, prefix_nil.
      * intros ? [= <-]. by left.
    + set (m1 := {| nested_pools := add_error (ptr_pool record) (nested_pools m);
                    max_tries := max_tries m;
                    counters := ProfileEvents.increment
                                  ProfileEvents.DistributedConnectionFailTry (counters m);
                    world := w1; probes := probes m ++ [probe] |}).
      assert (Hh : pool_handles m1 = pool_handles m)
        by apply pool_handles_add_error.
      assert (Hone : attempted [(try_no, ptr_pool record)] None entry1 fail_messages
                       (fail_messages +:+ fail_message +:+ endl) m m1 [probe] [probe]).
      { unfold attempted. simpl. rewrite append_nil_r.
        repeat split; try done.
        - by constructor.
        - by constructor.
        - unfold ProfileEvents.increment. simpl. lia. }
      destruct (IH entry1 (fail_messages +:+ fail_message +:+ endl) m1)
        as (found & entry' & fail_messages' & m' & ps & fails & Heq & Hatt & Hfound).
      { by rewrite Hh. }
      exists found, entry', fail_messages', m', ([probe] ++ ps), ([probe] ++ fails).
      split; [exact Heq|]. split.
      * exact (attempted_app [(try_no, ptr_pool record)] _ _ _ _ _ _ _ _ _ _
                 _ _ _ _ Hone Hatt).
      * intros r Hr. right. by apply Hfound.
Qed.

Lemma try_loop_spec (settings : option Settings)
    (pool_ptrs : list IndexedPoolWithErrorCount) (tries_left : nat) :
  ∀ (try_no : nat) (entry : Entry) (fail_messages : string) (m : Process),
    Forall (λ record, (ptr_pool record < length (pool_handles m))%nat) pool_ptrs →
    ∃ found entry' fail_messages' m' ps fails,
      try_loop settings tries_left try_no pool_ptrs entry fail_messages m
      = Some (found, entry', fail_messages', m')
      ∧ attempted (schedule tries_left try_no (ptr_pool <$> pool_ptrs))
          found entry' fail_messages fail_messages' m m' ps fails
      ∧ (∀ record, found = Some record → record ∈ pool_ptrs).
Proof.
  induction tries_left as [|tries_left IH];
    intros try_no entry fail_messages m Hin.
  - exists None, entry, fail_messages, m, [], []. simpl.
    split; [done|]. split; [apply attempted_nil|done].
  - destruct (try_pools_spec settings try_no pool_ptrs entry fail_messages m Hin)
      as (found & entry1 & fm1 & m1 & ps1 & fails1 & Heq & Hatt & Hfound).
    simpl. rewrite Heq. simpl. rewrite <- list_fmap_compose.
    destruct found as [record|].
    + exists (Some record), entry1, fm1, m1, ps1, fails1.
      split; [done|]. split; [by apply attempted_more|done].
    + assert (Hh : pool_handles m1 = pool_handles m) by apply Hatt.
      destruct (IH (S try_no) entry1 fm1 m1)
        as (found & entry' & fail_messages' & m' & ps & fails & Heq' & Hatt' & Hfound').
      { by rewrite Hh. }
      exists found, entry', fail_messages', m', (ps1 ++ ps), (fails1 ++ fails).
      split; [exact Heq'|]. split; [|done].
      exact (attempted_app _ _ _ _ _ _ _ _ _ _ _ _ _ _ _ Hatt Hatt').
Qed.

End LoopFacts.

(** ** One call of getResource *)

Lemma compare_asym (a b : State) : compare a b = true → compare b a = false.
Proof.
  unfold compare.
  destruct (Z.ltb_spec (priority b) (priority a)),
           (Z.ltb_spec (priority a) (priority b)),
           (Z.ltb_spec (error_count b) (error_count a)),
           (Z.ltb_spec (error_count a) (error_count b)),
           (Z.ltb_spec (random a) (random b)),
           (Z.ltb_spec (random b) (random a)); simpl; intros; try done; lia.
Qed.

Lemma insert_swap_out {A : Type} (l : list A) (i : nat) (x y : A) :
  l !! i = Some x → x :: <[i:=y]> l ≡ₚ y :: l.
Proof.
  revert i. induction l as [|z l IH]; intros [|i] Hi; simplify_eq/=.
  - apply Permutation_swap.
  - rewrite Permutation_swap. rewrite (IH i Hi). apply Permutation_swap.
Qed.

Section ResourceFacts.
Context `{Env : Environment}.
Import ResourceTracker.

Lemma candidates_bound (n : nat) (rt : option ResourceTracker.t) (i : nat) :
  tracker_ok n rt → i ∈ candidates rt n → (i < n)%nat.
Proof.
  destruct rt as [t|]; simpl.
  - intros [Hp Hu] Hi. apply subseteq_take in Hi.
    rewrite Hp in Hi. apply elem_of_seq in Hi. lia.
  - intros _ Hi. apply elem_of_seq in Hi. lia.
Qed.

Lemma markAsAllocated_candidates (t : ResourceTracker.t) (i x : nat) :
  handles t !! i = Some x →
  (i < unallocated_size t)%nat →
  (unallocated_size t ≤ length (handles t))%nat →
  ∃ t', markAsAllocated t i = Some t'
        ∧ handles t' ≡ₚ handles t
        ∧ unallocated_size t' = (unallocated_size t - 1)%nat
        ∧ take (unallocated_size t) (handles t)
          ≡ₚ x :: take (unallocated_size t') (handles t').
Proof.
  intros Hx Hi Hu. unfold markAsAllocated.
  destruct (unallocated_size t) as [|last] eqn:E; [lia|].
  destruct (lookup_lt_is_Some_2 (handles t) last) as [y Hy]; [lia|].
  rewrite Hx, Hy. simpl. eexists. split; [reflexivity|]. simpl.
  split; [by apply Permutation_insert_swap|]. split; [lia|].
  rewrite take_insert_ge by lia.
  rewrite (take_S_r _ _ y Hy).
  destruct (decide (i = last)) as [->|Hne].
  - simplify_eq. rewrite take_insert_ge by lia.
    by rewrite Permutation_app_comm.
  - rewrite take_insert_lt by lia.
    rewrite insert_swap_out; [by rewrite Permutation_app_comm|].
    rewrite lookup_take_lt by lia. done.
Qed.

Lemma make_pool_ptrs_spec (rt : option ResourceTracker.t)
    (states : list State) (n : nat) :
  tracker_ok n rt →
  length states = n →
  ∃ pool_ptrs,
    make_pool_ptrs rt states
      (match rt with Some t => getUnallocatedSize t | None => n end)
    = Some pool_ptrs
    ∧ ptr_pool <$> pool_ptrs = candidates rt n
    ∧ Forall (λ record,
                states !! ptr_pool record = Some (ptr_state record)
                ∧ match rt with
                  | Some t => handles t !! index record = Some (ptr_pool record)
                              ∧ (index record < unallocated_size t)%nat
                  | None => True
                  end) pool_ptrs.
Proof.
  intros Hok Hlen. unfold make_pool_ptrs.
  set (k := match rt with Some t => getUnallocatedSize t | None => n end).
  set (f := λ i : nat, _).
  assert (Hpi : ∀ i, (i < k)%nat →
            ∃ h, match rt with Some t => getHandle t i | None => Some i end = Some h
                 ∧ candidates rt n !! i = Some h).
  { intros i Hi. destruct rt as [t|]; simpl in *.
    - destruct Hok as [Hp Hu]. unfold getHandle, getUnallocatedSize in *.
      apply Permutation_length in Hp. rewrite length_seq in Hp.
      destruct (lookup_lt_is_Some_2 (handles t) i) as [h Hh]; [lia|].
      exists h. split; [done|]. by rewrite lookup_take_lt.
    - exists i. split; [done|]. by rewrite lookup_seq_lt. }
  assert (Hf : ∀ i, (i < k)%nat → is_Some (f i)).
  { intros i Hi. destruct (Hpi i Hi) as (h & Hh & Hc). unfold f. rewrite Hh. simpl.
    assert (h < n)%nat as Hhn.
    { apply (candidates_bound n rt); [done|]. by eapply list_elem_of_lookup_2. }
    destruct (lookup_lt_is_Some_2 states h) as [st Hst]; [lia|].
    rewrite Hst. simpl. eauto. }
  destruct (mapM_is_Some_2 f (seq 0 k)) as [pool_ptrs Hm].
  { apply Forall_forall. intros i Hi%elem_of_seq. apply Hf. lia. }
  exists pool_ptrs. split; [done|].
  apply mapM_Some_1 in Hm.
  assert (Hl : length pool_ptrs = k).
  { apply Forall2_length in Hm. by rewrite length_seq in Hm. }
  assert (Hk : ∀ j record, pool_ptrs !! j = Some record →
            (j < k)%nat ∧ f j = Some record).
  { intros j record Hj.
    destruct (Forall2_lookup_r _ _ _ _ _ Hm Hj) as (i & Hi & Hfi).
    apply lookup_seq in Hi as [-> Hi]. done. }
  assert (Hlc : length (candidates rt n) = k).
  { destruct rt as [t|]; simpl in *.
    - destruct Hok as [Hp Hu]. apply Permutation_length in Hp.
      rewrite length_seq in Hp. rewrite length_take.
      unfold k, getUnallocatedSize. lia.
    - by rewrite length_seq. }
  split.
  - apply list_eq. intros j. rewrite list_lookup_fmap.
    destruct (pool_ptrs !! j) as [record|] eqn:Hj; simpl.
    + destruct (Hk j record Hj) as [Hjk Hfj].
      destruct (Hpi j Hjk) as (h & Hh & Hc). rewrite Hc.
      unfold f in Hfj. rewrite Hh in Hfj. simpl in Hfj.
      destruct (states !! h); simplify_eq/=. done.
    + apply lookup_ge_None in Hj. symmetry. apply lookup_ge_None. lia.
  - apply Forall_lookup. intros j record Hj.
    destruct (Hk j record Hj) as [Hjk Hfj].
    destruct (Hpi j Hjk) as (h & Hh & Hc).
    unfold f in Hfj. rewrite Hh in Hfj. simpl in Hfj.
    destruct (states !! h) as [st|] eqn:Hst; simplify_eq/=.
    split; [done|]. destruct rt as [t|]; [|done]. done.
Qed.

End ResourceFacts.

Section GetResourceFacts.
Context `{Env : Environment}.
Import ResourceTracker.

Lemma sort_pool_ptrs_perm (pool_ptrs : list IndexedPoolWithErrorCount) :
  sort_pool_ptrs pool_ptrs ≡ₚ pool_ptrs.
Proof. apply std_sort_perm. Qed.

Lemma sort_pool_ptrs_sorted (pool_ptrs : list IndexedPoolWithErrorCount) :
  StronglySorted (λ x y, compare (ptr_state y) (ptr_state x) = false)
    (sort_pool_ptrs pool_ptrs).
Proof.
  apply (std_sort_sorted (λ lhs rhs, compare (ptr_state lhs) (ptr_state rhs))).
  - intros x y. apply compare_asym.
  - intros x y z Hxy Hyz. apply compare_lex_le.
    apply (lex_le_trans _ (ptr_state y)); by apply compare_lex_le.
Qed.

(** [getResource] is defined whenever [update] is and the tracker, if
    there is one, is one for the pools at hand.  It asks the candidates in
    an order that is ascending in the triples of the states that [update]
    returned. *)
Lemma getResource_spec (entry : Entry) (fail_messages : string)
    (rt : option ResourceTracker.t) (settings : option Settings) (m : Process) :
  is_Some (update (nested_pools m) (world m)) →
  tracker_ok (length (pool_handles m)) rt →
  ∃ states np w1 order ok entry' fail_messages' rt' m' ps fails,
    update (nested_pools m) (world m) = Some (states, np, w1)
    ∧ getResource entry fail_messages rt settings m
      = Some (ok, entry', fail_messages', rt', m')
    ∧ order ≡ₚ candidates rt (length (pool_handles m))
    ∧ (∀ a b i j si sj,
         (a < b)%nat → order !! a = Some i → order !! b = Some j →
         states !! i = Some si → states !! j = Some sj → lex_le si sj)
    ∧ (∀ i, i ∈ order → is_Some (states !! i))
    ∧ resourced (length (pool_handles m)) (schedule (max_tries m) 0 order)
        ok entry' fail_messages fail_messages' rt rt' m m' ps fails.
Proof.
  intros [[[states np] w1] Hu] Hok. set (n := length (pool_handles m)) in *.
  destruct (update_shape _ _ _ _ _ Hu) as (Hst & Hh & Hd & _).
  assert (Hn : length (pools np) = n).
  { unfold n, pool_handles. rewrite <- Hh. by rewrite length_fmap. }
  assert (Hls : length states = n) by (by rewrite Hst, length_fmap).
  destruct (make_pool_ptrs_spec rt states n Hok Hls)
    as (pool_ptrs & Hmk & Hcand & Hgood).
  set (sorted := sort_pool_ptrs pool_ptrs).
  assert (Hperm : sorted ≡ₚ pool_ptrs) by apply sort_pool_ptrs_perm.
  assert (Hsorted := sort_pool_ptrs_sorted pool_ptrs). fold sorted in Hsorted.
  assert (Hgood' : Forall (λ record,
                states !! ptr_pool record = Some (ptr_state record)
                ∧ match rt with
                  | Some t => handles t !! index record = Some (ptr_pool record)
                              ∧ (index record < unallocated_size t)%nat
                  | None => True
                  end) sorted) by (by rewrite Hperm).
  set (m1 := {| nested_pools := np; max_tries := max_tries m;
                counters := counters m; world := w1; probes := probes m |}).
  assert (Hh1 : pool_handles m1 = pool_handles m) by exact Hh.
  assert (Hin : Forall (λ record, (ptr_pool record < length (pool_handles m1))%nat)
                  sorted).
  { rewrite Hh1. apply Forall_forall. intros record Hrec.
    apply (candidates_bound n rt); [done|].
    rewrite <- Hcand, <- Hperm. by apply list_elem_of_fmap_2. }
  destruct (try_loop_spec settings sorted (max_tries m) 0 entry fail_messages m1 Hin)
    as (found & entry' & fail_messages' & m2 & ps & fails & Heq & Hatt & Hfound).
  assert (Hget : ∀ r, (match found with
                 | Some record =>
                     resource_tracker' ←
                       match rt with
                       | Some t => Some <$> markAsAllocated t (index record)
                       | None => Some None
                       end;
                     Some (true, entry', fail_messages', resource_tracker', m2)
                 | None =>
                     Some (false, entry', fail_messages', rt,
                           {| nested_pools := nested_pools m2;
                              max_tries := max_tries m2;
                              counters := ProfileEvents.increment
                                ProfileEvents.DistributedConnectionFailAtAll (counters m2);
                              world := world m2; probes := probes m2 |})
                 end) = r →
             getResource entry fail_messages rt settings m = r).
  { intros r <-. unfold getResource. rewrite Hu. simpl. rewrite Hn.
    rewrite Hmk. simpl. fold sorted. fold m1. rewrite Heq. simpl. done. }
  destruct Hatt as (Hp & Hg & Hf & Hh2 & Hd2 & Ht2 & Ha2 & Hc2 & Hm2 & Hcase).
  rewrite Hh1 in Hg. rewrite Hh1 in Hh2. simpl in Hp, Hd2, Ht2, Ha2, Hc2.
  rewrite Hd in Hd2.
  assert (Hsort :
    ∀ a b i j si sj,
      (a < b)%nat → (ptr_pool <$> sorted) !! a = Some i →
      (ptr_pool <$> sorted) !! b = Some j →
      states !! i = Some si → states !! j = Some sj → lex_le si sj).
  { intros a b i j si sj Hab Ha Hb Hi Hj.
    rewrite list_lookup_fmap in Ha, Hb.
    destruct (sorted !! a) as [x|] eqn:Hx; simplify_eq/=.
    destruct (sorted !! b) as [y|] eqn:Hy; simplify_eq/=.
    rewrite Forall_lookup in Hgood'.
    destruct (Hgood' _ _ Hx) as [Hsx _]. destruct (Hgood' _ _ Hy) as [Hsy _].
    simplify_eq. apply compare_lex_le.
    by apply (StronglySorted_lookup_lt _ _ Hsorted a b). }
  assert (Hstates : ∀ i, i ∈ ptr_pool <$> sorted → is_Some (states !! i)).
  { intros i (record & -> & Hrec)%list_elem_of_fmap.
    rewrite Forall_forall in Hgood'. destruct (Hgood' _ Hrec) as [-> _]. eauto. }
  assert (Horder : ptr_pool <$> sorted ≡ₚ candidates rt n).
  { by rewrite Hperm, Hcand. }
  destruct found as [record|].
  - destruct Hcase as (p & Hps & Hpok & Hpe & Hpp & Hpre).
    assert (Hrec : record ∈ sorted) by (by apply Hfound).
    rewrite Forall_forall in Hgood'. destruct (Hgood' _ Hrec) as [_ Htr].
    destruct rt as [t|].
    + destruct Htr as [Hhandle Hidx]. destruct Hok as [Hpt Hut].
      destruct (markAsAllocated_candidates t (index record) (ptr_pool record))
        as (t' & Hmark & Hpt' & Hut' & Hc'); [done..| |].
      { apply Permutation_length in Hpt. rewrite length_seq in Hpt. lia. }
      exists states, np, w1, (ptr_pool <$> sorted), true, entry', fail_messages',
        (Some t'), m2, ps, fails.
      split; [done|]. split.
      { apply Hget. rewrite Hmark. done. }
      split; [done|]. split; [done|]. split; [done|].
      unfold resourced. repeat split; try done.
      * by rewrite Hpt'.
      * simpl. lia.
      * exists p. repeat split; try done. exists t'. split; [done|].
        simpl. by rewrite Hpp.
    + exists states, np, w1, (ptr_pool <$> sorted), true, entry', fail_messages',
        None, m2, ps, fails.
      split; [done|]. split; [by apply Hget|].
      split; [done|]. split; [done|]. split; [done|].
      unfold resourced. repeat split; try done.
      exists p. repeat split; done.
  - destruct Hcase as [Hps Hkeys].
    eexists states, np, w1, (ptr_pool <$> sorted), false, entry', fail_messages',
        rt, _, ps, fails.
    split; [done|]. split; [by apply Hget|].
    split; [done|]. split; [done|]. split; [done|].
    unfold resourced. simpl. repeat split; try done.
    unfold ProfileEvents.increment. simpl. rewrite Ha2. lia.
Qed.

End GetResourceFacts.

(** ** The order of the calls *)

Section OrderFacts.
Context `{Env : Environment}.


Lemma schedule_length (tries try_no : nat) (order : list nat) :
  length (schedule tries try_no order) = (tries * length order)%nat.
Proof.
  revert try_no. induction tries as [|tries IH]; intros; simpl; [done|].
  by rewrite length_app, length_fmap, IH.
Qed.

(** If [i] stands at position [a] of the order and [j] only at later
    positions, every call on [j] comes after a call on [i] of the same
    round. *)
Lemma schedule_before (order : list nat) (i j a : nat) :
  order !! a = Some i →
  (∀ b, order !! b = Some j → (a < b)%nat) →
  ∀ tries try_no q r,
    schedule tries try_no order !! q = Some (r, j) →
    ∃ q', (q' < q)%nat ∧ schedule tries try_no order !! q' = Some (r, i).
Proof.
  intros Ha Hb. induction tries as [|tries IH]; intros try_no q r Hq; [done|].
  simpl in Hq. simpl. apply lookup_app_Some in Hq as [Hq|[Hlen Hq]].
  - rewrite list_lookup_fmap in Hq.
    destruct (order !! q) as [j'|] eqn:Hj; simplify_eq/=.
    exists a. split; [by apply Hb|].
    apply lookup_app_l_Some. by rewrite list_lookup_fmap, Ha.
  - destruct (IH _ _ _ Hq) as (q' & Hlt & Hq').
    exists (length ((λ i0, (try_no, i0)) <$> order) + q')%nat. split; [lia|].
    rewrite lookup_app_r by lia.
    by replace (length ((λ i0, (try_no, i0)) <$> order) + q'
                - length ((λ i0, (try_no, i0)) <$> order))%nat with q' by lia.
Qed.

End OrderFacts.

(** C2. A call of [getResource] asks the candidates in an order that is
    ascending in the triples (priority, error count, random number) of the
    states that [update] has just returned, and every round follows that
    order: the calls of [tryGet] are a beginning of the rounds laid end to
    end.  Hence, for two candidates [i] and [j] with the priority of [i] below
    that of [j] (with equal error counts or not), every call on [j] comes
    after a call on [i] of the same round. *)
Theorem candidates_probed_in_order `{Env : Environment}
    (entry : Entry) (fail_messages : string) (rt : option ResourceTracker.t)
    (settings : option Settings) (m : Process) :
  decrease_error_period (nested_pools m) ≠ 0 →
  tracker_ok (length (pool_handles m)) rt →
  ∃ states np w1 order ok entry' fail_messages' rt' m' ps,
    update (nested_pools m) (world m) = Some (states, np, w1)
    ∧ getResource entry fail_messages rt settings m
      = Some (ok, entry', fail_messages', rt', m')
    ∧ probes m' = probes m ++ ps
    ∧ order ≡ₚ candidates rt (length (pool_handles m))
    ∧ (∀ a b i j si sj,
         (a < b)%nat → order !! a = Some i → order !! b = Some j →
         states !! i = Some si → states !! j = Some sj → lex_le si sj)
    ∧ probe_key <$> ps `prefix_of` schedule (max_tries m) 0 order
    ∧ (∀ i j si sj,
         i ∈ candidates rt (length (pool_handles m)) →
         j ∈ candidates rt (length (pool_handles m)) →
         states !! i = Some si → states !! j = Some sj →
         priority si < priority sj →
         ∀ q r, (probe_key <$> ps) !! q = Some (r, j) →
                ∃ q', (q' < q)%nat ∧ (probe_key <$> ps) !! q' = Some (r, i)).
Proof.
  intros Hperiod Hok.
  destruct (getResource_spec entry fail_messages rt settings m)
    as (states & np & w1 & order & ok & entry' & fm' & rt' & m' & ps & fails
        & Hu & Hget & Horder & Hsort & Hst & Hres); [by apply update_defined|done|].
  exists states, np, w1, order, ok, entry', fm', rt', m', ps.
  assert (Hpre : probe_key <$> ps `prefix_of` schedule (max_tries m) 0 order).
  { destruct Hres as (_&_&_&_&_&_&_&_&_& Hcase). destruct ok.
    - by destruct Hcase as (_ & p & _ & _ & _ & ? & _).
    - destruct Hcase as (_ & _ & -> & _). done. }
  repeat split; try done; [apply Hres|].
  intros i j si sj Hi Hj Hsi Hsj Hlt q r Hq.
  rewrite <- Horder in Hi. apply list_elem_of_lookup in Hi as [a Ha].
  destruct (schedule_before order i j a Ha) with (tries := max_tries m)
    (try_no := 0%nat) (q := q) (r := r) as (q' & Hq' & Hlook).
  - intros b Hb. destruct (decide (a < b)%nat) as [|Hge]; [done|]. exfalso.
    destruct (decide (a = b)) as [->|Hne].
    + simplify_eq. lia.
    + assert (lex_le sj si) as Hle.
      { apply (Hsort b a j i); [lia|done..]. }
      unfold lex_le in Hle. lia.
  - by eapply prefix_lookup_Some.
  - exists q'. split; [done|].
    destruct Hpre as [k Hk]. rewrite Hk in Hlook.
    rewrite lookup_app_l in Hlook; [done|].
    apply lookup_lt_Some in Hq. lia.
Qed.

Lemma candidates_probed_in_order_witness :
  let m := Scenario.process [2%nat]
             [Scenario.replica 0 0 5; Scenario.replica 1 0 0; Scenario.replica 2 (-1) 7]
             100 10 3 125 in
  ∃ states np w1 order ok entry' fail_messages' rt' m' ps,
    update (nested_pools m) (world m) = Some (states, np, w1)
    ∧ @getResource (Scenario.env [2%nat]) None EmptyString None None m
      = Some (ok, entry', fail_messages', rt', m')
    ∧ probes m' = probes m ++ ps
    ∧ order ≡ₚ candidates None (length (pool_handles m))
    ∧ (∀ a b i j si sj,
         (a < b)%nat → order !! a = Some i → order !! b = Some j →
         states !! i = Some si → states !! j = Some sj → lex_le si sj)
    ∧ probe_key <$> ps `prefix_of` schedule (max_tries m) 0 order
    ∧ (∀ i j si sj,
         i ∈ candidates None (length (pool_handles m)) →
         j ∈ candidates None (length (pool_handles m)) →
         states !! i = Some si → states !! j = Some sj →
         priority si < priority sj →
         ∀ q r, (probe_key <$> ps) !! q = Some (r, j) →
                ∃ q', (q' < q)%nat ∧ (probe_key <$> ps) !! q' = Some (r, i)).
Proof.
  intros m.
  apply (@candidates_probed_in_order (Scenario.env [2%nat]) None EmptyString None None m).
  - simpl. lia.
  - exact I.
Defined.

(** ** A pool without a live replica *)

Section FailureFacts.
Context `{Env : Environment}.



End FailureFacts.





(** The two cases of C8 on one replica that is down, three tries. *)
Example get_skips_unavailable :
  match @get (Scenario.env [0%nat]) (Scenario.settings 1 1)
          (Scenario.process [0%nat] [Scenario.replica 0 0 0] 0 10 3 125)
  with
  | Some (Return entry, m') =>
      entry = None
      ∧ (λ p, (probe_try_no p, probe_pool p, probe_ok p)) <$> probes m'
        = [(0, 0, false); (1, 0, false); (2, 0, false)]%nat
  | _ => False
  end.
Proof. by vm_compute. Qed.

Example get_throws_all_tries_failed :
  match @get (Scenario.env [0%nat]) (Scenario.settings 1 0)
          (Scenario.process [0%nat] [Scenario.replica 0 0 0] 0 10 3 125)
  with
  | Some (Throw exn, m') =>
      exn = {| message := "All connection tries failed. Log: " +:+ endl +:+ endl
                          +:+ "conn refused" +:+ endl +:+ "conn refused" +:+ endl
                          +:+ "conn refused" +:+ endl +:+ endl;
               code := ALL_CONNECTION_TRIES_FAILED |}
      ∧ (λ p, (probe_try_no p, probe_pool p, probe_ok p)) <$> probes m'
        = [(0, 0, false); (1, 0, false); (2, 0, false)]%nat
  | _ => False
  end.
Proof. by vm_compute. Qed.




(** ** Several replicas at once *)

Section GetManyFacts.
Context `{Env : Environment}.
Import ResourceTracker.

Lemma successes_app (ps1 ps2 : list Probe) :
  successes (ps1 ++ ps2) = successes ps1 ++ successes ps2.
Proof. apply filter_app. Qed.

Lemma successes_fails (fails : list Probe) :
  Forall (λ p, probe_ok p = false) fails → successes fails = [].
Proof.
  induction 1 as [|p fails Hp _ IH]; [done|].
  unfold successes in *. rewrite filter_cons_False; [done|congruence].
Qed.

Lemma successes_one (p : Probe) : probe_ok p = true → successes [p] = [p].
Proof. intros Hp. unfold successes. by rewrite filter_cons_True. Qed.

Lemma candidates_length (n : nat) (t : ResourceTracker.t) :
  tracker_ok n (Some t) → length (candidates (Some t) n) = unallocated_size t.
Proof.
  intros [Hp Hu]. simpl. apply Permutation_length in Hp.
  rewrite length_seq in Hp. rewrite length_take. lia.
Qed.

Lemma getMany_loop_spec (settings : option Settings) (skip : bool) (left : nat) :
  ∀ (i : nat) (t : ResourceTracker.t) (connections : list Entry) (m : Process)
    (taken : list nat),
    decrease_error_period (nested_pools m) ≠ 0 →
    tracker_ok (length (pool_handles m)) (Some t) →
    NoDup (taken ++ candidates (Some t) (length (pool_handles m))) →
    ∃ out m' ps,
      getMany_loop settings skip left i (Some t) connections m = Some (out, m')
      ∧ probes m' = probes m ++ ps
      ∧ NoDup (taken ++ (probe_pool <$> successes ps))
      ∧ (length (successes ps) ≤ left)%nat
      ∧ ∀ l, out = Return l → l = connections ++ (probe_entry <$> successes ps).
Proof.
  induction left as [|left IH]; intros i t connections m taken Hperiod Hok Hnd.
  - exists (Return connections), m, []. simpl. rewrite !app_nil_r.
    repeat split; try done.
    + by apply NoDup_app in Hnd as (? & _ & _).
    + intros l [= <-]. done.
  - destruct (getResource_spec empty_entry EmptyString (Some t) settings m)
      as (states & np & w1 & order & ok & e1 & fm1 & rt1 & m1 & ps1 & fails
          & _ & Hget & _ & _ & _ & Hres); [by apply update_defined|done|].
    destruct Hres as (Hp & _ & Hf & Hh & Hd & _ & _ & _ & Hok1 & Hcase).
    simpl. rewrite Hget. simpl. destruct ok.
    + destruct Hcase as (_ & p & Hps & Hpok & Hpe & _ & t' & -> & Hc).
      destruct (IH (S i) t' (connections ++ [e1]) m1 (taken ++ [probe_pool p]))
        as (out & m' & ps2 & Hloop & Hp2 & Hnd2 & Hlen2 & Hout).
      * by rewrite Hd.
      * by rewrite Hh.
      * rewrite Hh, <- app_assoc. simpl. by rewrite <- Hc.
      * exists out, m', (ps1 ++ ps2).
        assert (Hs : successes (ps1 ++ ps2) = p :: successes ps2).
        { rewrite Hps, !successes_app, (successes_fails _ Hf).
          by rewrite (successes_one _ Hpok). }
        rewrite Hs. split; [done|].
        split; [by rewrite Hp2, Hp, app_assoc|].
        split; [by rewrite <- app_assoc in Hnd2|].
        split; [simpl; lia|].
        intros l Hl. rewrite (Hout l Hl), <- app_assoc. simpl. by rewrite Hpe.
    + destruct Hcase as (_ & -> & _ & _).
      assert (Hs := successes_fails _ Hf).
      assert (Hnd' : NoDup taken) by (by apply NoDup_app in Hnd as (? & _ & _)).
      destruct ((i =? 0)%nat && negb skip).
      * eexists _, m1, fails. rewrite Hs, !app_nil_r.
        repeat split; try done. simpl. lia.
      * eexists _, m1, fails. rewrite Hs, !app_nil_r.
        repeat split; try done; [simpl; lia|].
        intros l [= <-]. done.
Qed.

End GetManyFacts.

(** C3. With a period that is not zero, [getMany] is defined, whatever
    [tryGet] answers.  If it returns a list, the list is, in order, the
    entries of the calls of [tryGet] that succeeded during the call; there
    are at most [max_parallel_replicas] of them (one without settings), and
    the replicas these calls were made on are pairwise different. *)
Theorem getMany_distinct_replicas `{Env : Environment}
    (settings : option Settings) (m : Process) :
  decrease_error_period (nested_pools m) ≠ 0 →
  ∃ out m' ps,
    getMany settings m = Some (out, m')
    ∧ probes m' = probes m ++ ps
    ∧ ∀ l, out = Return l →
           l = probe_entry <$> successes ps
           ∧ (length l ≤ N.to_nat (max_connections_of settings))%nat
           ∧ NoDup (probe_pool <$> successes ps).
Proof.
  intros Hperiod. unfold getMany.
  destruct (max_size <? max_connections_of settings)%N.
  { exists Throw_length_error, m, []. rewrite app_nil_r.
    split; [done|]. split; [done|]. intros l Hl. discriminate Hl. }
  destruct (getMany_loop_spec settings (skip_unavailable_of settings)
              (N.to_nat (max_connections_of settings)) 0
              (ResourceTracker.create (length (pools (nested_pools m)))) [] m [])
    as (out & m' & ps & Hloop & Hp & Hnd & Hlen & Hout).
  - done.
  - unfold pool_handles. rewrite length_fmap. simpl. split; [done|lia].
  - unfold pool_handles. rewrite length_fmap. simpl.
    rewrite take_ge by (by rewrite length_seq). apply NoDup_seq.
  - exists out, m', ps. split; [done|]. split; [done|].
    intros l Hl. rewrite (Hout l Hl). simpl.
    split; [done|]. split; [by rewrite length_fmap|done].
Qed.

Lemma getMany_distinct_replicas_witness :
  let m := Scenario.process [2%nat]
             [Scenario.replica 0 0 5; Scenario.replica 1 0 0; Scenario.replica 2 (-1) 7]
             100 10 3 125 in
  let settings := Scenario.settings 5 0 in
  ∃ out m' ps,
    getMany settings m = Some (out, m')
    ∧ probes m' = probes m ++ ps
    ∧ ∀ l, out = Return l →
           l = probe_entry <$> successes ps
           ∧ (length l ≤ N.to_nat (max_connections_of settings))%nat
           ∧ NoDup (probe_pool <$> successes ps).
Proof.
  intros m settings.
  apply (@getMany_distinct_replicas (Scenario.env [2%nat]) settings m).
  simpl. lia.
Defined.

(** ** The counter of the calls that found no replica *)

Section FailAtAllFacts.
Context `{Env : Environment}.
Import ResourceTracker.




End FailAtAllFacts.




(** * Further properties of the code *)

(** ** ResourceTracker, call by call *)

(** X1. [markAsAllocated(i)] on a tracker without repeated handles, for an
    index below the unallocated size: the unallocated size drops by one, the
    handle that stood at [i] now stands right behind the unallocated part and
    is no longer in it, every other handle of the unallocated part stays in
    it, and the handles allocated before are where they were. *)
Theorem markAsAllocated_takes_handle (t : ResourceTracker.t) (i x : nat) :
  NoDup (ResourceTracker.handles t) →
  ResourceTracker.handles t !! i = Some x →
  (i < ResourceTracker.unallocated_size t)%nat →
  (ResourceTracker.unallocated_size t ≤ length (ResourceTracker.handles t))%nat →
  ∃ t',
    ResourceTracker.markAsAllocated t i = Some t'
    ∧ ResourceTracker.unallocated_size t' = (ResourceTracker.unallocated_size t - 1)%nat
    ∧ ResourceTracker.handles t' !! ResourceTracker.unallocated_size t' = Some x
    ∧ (x ∉ take (ResourceTracker.unallocated_size t') (ResourceTracker.handles t'))
    ∧ (∀ y, y ≠ x →
         y ∈ take (ResourceTracker.unallocated_size t) (ResourceTracker.handles t) →
         y ∈ take (ResourceTracker.unallocated_size t') (ResourceTracker.handles t'))
    ∧ drop (ResourceTracker.unallocated_size t) (ResourceTracker.handles t')
      = drop (ResourceTracker.unallocated_size t) (ResourceTracker.handles t).
Proof.
  intros Hnd Hx Hi Hu.
  destruct (markAsAllocated_candidates t i x Hx Hi Hu) as (t' & Hm & Hp & Hs & Hc).
  exists t'. split; [done|]. split; [done|].
  assert (Hnd' : NoDup (x :: take (ResourceTracker.unallocated_size t')
                               (ResourceTracker.handles t'))).
  { rewrite <- Hc. eapply sublist_NoDup; [exact Hnd|apply sublist_take]. }
  apply NoDup_cons in Hnd' as [Hnotin _].
  unfold ResourceTracker.markAsAllocated in Hm.
  destruct (ResourceTracker.unallocated_size t) as [|last] eqn:E; [lia|].
  rewrite Hx in Hm. simpl in Hm.
  destruct (ResourceTracker.handles t !! last) as [y|] eqn:Hy; [|done].
  simpl in Hm. injection Hm as <-. simpl in *.
  split; [|split; [done|split]].
  - apply list_lookup_insert_eq. rewrite length_insert. lia.
  - intros z Hz Hin. rewrite Hc in Hin. apply elem_of_cons in Hin as [->|Hin]; done.
  - rewrite drop_insert_lt by lia. by rewrite drop_insert_lt by lia.
Qed.

Lemma markAsAllocated_takes_handle_witness :
  ∃ t',
    ResourceTracker.markAsAllocated (ResourceTracker.create 4) 1 = Some t'
    ∧ ResourceTracker.unallocated_size t' = (4 - 1)%nat
    ∧ ResourceTracker.handles t' !! ResourceTracker.unallocated_size t' = Some 1%nat
    ∧ (1%nat ∉ take (ResourceTracker.unallocated_size t') (ResourceTracker.handles t'))
    ∧ (∀ y, y ≠ 1%nat →
         y ∈ take 4 (seq 0 4) →
         y ∈ take (ResourceTracker.unallocated_size t') (ResourceTracker.handles t'))
    ∧ drop 4 (ResourceTracker.handles t') = drop 4 (seq 0 4).
Proof.
  apply (markAsAllocated_takes_handle (ResourceTracker.create 4) 1 1).
  - apply NoDup_seq.
  - reflexivity.
  - simpl. lia.
  - simpl. lia.
Defined.

(** X2. [markAsAllocated(i)] reaches outside the vector of handles, and so
    has no defined result, exactly when nothing is unallocated, when [i] is
    not an index of the vector, or when the unallocated size is beyond the
    vector. *)
Theorem markAsAllocated_undefined (t : ResourceTracker.t) (i : nat) :
  ResourceTracker.markAsAllocated t i = None
  ↔ ResourceTracker.unallocated_size t = 0%nat
    ∨ (length (ResourceTracker.handles t) ≤ i)%nat
    ∨ (length (ResourceTracker.handles t) < ResourceTracker.unallocated_size t)%nat.
Proof.
  unfold ResourceTracker.markAsAllocated.
  destruct (ResourceTracker.unallocated_size t) as [|last]; [by split; auto|].
  destruct (ResourceTracker.handles t !! i) as [x|] eqn:Hx; simpl.
  - apply lookup_lt_Some in Hx.
    destruct (ResourceTracker.handles t !! last) as [y|] eqn:Hy; simpl.
    + apply lookup_lt_Some in Hy. split; [done|]. lia.
    + apply lookup_ge_None in Hy. split; [|done]. intros _. right. right. lia.
  - apply lookup_ge_None in Hx. split; [|done]. intros _. right. by left.
Qed.

(** X3. After any calls that respect the contract, on a tracker created for
    [N] resources, the unallocated size is [N] less the number of calls of
    [markAsAllocated] and the vector still has [N] handles: only
    [markAsAllocated] changes the size, by one each time. *)
Theorem tracker_size_counts_allocations (N : nat) (ops : list ResourceTracker.op) :
  ResourceTracker.in_range N ops = true →
  ∃ r, ResourceTracker.run (ResourceTracker.create N) ops = Some r
       ∧ ResourceTracker.getUnallocatedSize r = (N - allocations ops)%nat
       ∧ (allocations ops ≤ N)%nat
       ∧ length (ResourceTracker.handles r) = N.
Proof.
  intros Hr.
  assert (Hgen : ∀ ops (r : ResourceTracker.t),
            (ResourceTracker.unallocated_size r ≤ length (ResourceTracker.handles r))%nat →
            ResourceTracker.in_range (ResourceTracker.unallocated_size r) ops = true →
            ∃ r', ResourceTracker.run r ops = Some r'
                  ∧ ResourceTracker.unallocated_size r'
                    = (ResourceTracker.unallocated_size r - allocations ops)%nat
                  ∧ (allocations ops ≤ ResourceTracker.unallocated_size r)%nat
                  ∧ length (ResourceTracker.handles r')
                    = length (ResourceTracker.handles r)).
  { clear. induction ops as [|o ops IH]; intros r Hu Hr; simpl in *.
    - exists r. repeat split; lia.
    - destruct o as [i| |i].
      + apply andb_true_iff in Hr as [Hi Hr]. apply Nat.ltb_lt in Hi.
        destruct (lookup_lt_is_Some_2 (ResourceTracker.handles r) i) as [x Hx]; [lia|].
        unfold ResourceTracker.step, ResourceTracker.getHandle. rewrite Hx. simpl.
        by apply IH.
      + by apply IH.
      + apply andb_true_iff in Hr as [Hi Hr]. apply Nat.ltb_lt in Hi.
        destruct (ResourceTrackerFacts.markAsAllocated_Some r i)
          as (r' & Hm & Hp & Hs); [done..|].
        unfold ResourceTracker.step. rewrite Hm. simpl.
        apply Permutation_length in Hp.
        destruct (IH r') as (r'' & Hrun & Hsz & Hle & Hlen).
        * lia.
        * by rewrite Hs.
        * exists r''. split; [done|]. lia. }
  destruct (Hgen ops (ResourceTracker.create N)) as (r & Hrun & Hsz & Hle & Hlen).
  - simpl. by rewrite length_seq.
  - done.
  - exists r. simpl in *. rewrite length_seq in Hlen. done.
Qed.

Lemma tracker_size_counts_allocations_witness :
  ∃ r, ResourceTracker.run (ResourceTracker.create 3)
         [ResourceTracker.MarkAsAllocated 2; ResourceTracker.GetHandle 0;
          ResourceTracker.MarkAsAllocated 0; ResourceTracker.MarkAsAllocated 0] = Some r
       ∧ ResourceTracker.getUnallocatedSize r
         = (3 - allocations [ResourceTracker.MarkAsAllocated 2; ResourceTracker.GetHandle 0;
                             ResourceTracker.MarkAsAllocated 0;
                             ResourceTracker.MarkAsAllocated 0])%nat
       ∧ (allocations [ResourceTracker.MarkAsAllocated 2; ResourceTracker.GetHandle 0;
                       ResourceTracker.MarkAsAllocated 0;
                       ResourceTracker.MarkAsAllocated 0] ≤ 3)%nat
       ∧ length (ResourceTracker.handles r) = 3%nat.
Proof. apply (tracker_size_counts_allocations 3). reflexivity. Defined.

(** ** The comparator is a strict order *)

(** X4. [State::compare] is what [std::sort] needs of a comparator, and
    more: no state is less than itself, less is transitive, and two states
    of which neither is less than the other have the same priority, the same
    error count and the same random number. *)
Theorem compare_strict_total_order :
  (∀ a, compare a a = false)
  ∧ (∀ a b c, compare a b = true → compare b c = true → compare a c = true)
  ∧ (∀ a b, compare a b = false → compare b a = false →
            priority a = priority b
            ∧ error_count a = error_count b
            ∧ random a = random b).
Proof.
  split; [|split].
  - intros a. apply compare_lex_le. unfold lex_le. lia.
  - intros a b c Hab Hbc.
    destruct (compare a c) eqn:Hac; [done|]. exfalso.
    apply compare_lex_le in Hac.
    assert (Hba : ¬ lex_le b a).
    { intros H. apply compare_lex_le in H. congruence. }
    assert (Hcb : ¬ lex_le c b).
    { intros H. apply compare_lex_le in H. congruence. }
    unfold lex_le in *. lia.
  - intros a b Hab Hba. apply compare_lex_le in Hab, Hba.
    unfold lex_le in *. lia.
Qed.

(** ** The decay, case by case *)

Section DecayFacts.
Context `{Env : Environment}.

Lemma priorities_randomize (l : list PoolWithErrorCount) :
  (λ p, priority (state p)) <$> (randomize <$> l) = (λ p, priority (state p)) <$> l.
Proof.
  rewrite <- list_fmap_compose. apply list_fmap_ext.
  intros _ p _. simpl. unfold randomize. by destruct (lrand48_r (rand_state p)).
Qed.

Lemma priorities_with (f : Z → Z) (l : list PoolWithErrorCount) :
  (λ p, priority (state p)) <$> (with_error_count f <$> l)
  = (λ p, priority (state p)) <$> l.
Proof. by rewrite <- list_fmap_compose. Qed.

Lemma randoms_randomize (l : list PoolWithErrorCount) :
  Forall (λ p, 0 ≤ random (state p) < 2 ^ 32) (randomize <$> l).
Proof.
  apply Forall_fmap, Forall_forall. intros p _. simpl. unfold randomize.
  destruct (lrand48_r (rand_state p)) as [rand_res rs]. simpl.
  unfold wrap32. apply Z.mod_pos_bound. lia.
Qed.

Lemma randoms_with (f : Z → Z) (l : list PoolWithErrorCount) :
  Forall (λ p, 0 ≤ random (state p) < 2 ^ 32) l →
  Forall (λ p, 0 ≤ random (state p) < 2 ^ 32) (with_error_count f <$> l).
Proof. intros H. apply Forall_fmap. eapply Forall_impl; [exact H|]. done. Qed.

End DecayFacts.

(** X5. The first [update] of a set of pools, whose [last_decrease_time] is
    still 0: it is defined whatever the period (also for a period of 0,
    since nothing is divided), it records the time just read and it leaves
    every error count as it was, also counts that were not zero. *)
Theorem update_first_call `{Env : Environment}
    (p : PoolsWithErrorCount) (w w' : World) (now : Z) :
  time w = (now, w') →
  last_decrease_time p = 0 →
  ∃ p', update p w = Some (state <$> pools p', p', w')
        ∧ last_decrease_time p' = now
        ∧ error_counts (pools p') = error_counts (pools p).
Proof.
  intros Ht H0. rewrite (update_cases p w w' now Ht). simpl.
  rewrite bool_decide_eq_true_2 by done.
  exists (Build_PoolsWithErrorCount (randomize <$> pools p) now
            (decrease_error_period p)).
  simpl. split; [done|]. split; [done|]. apply error_counts_randomize.
Qed.

Lemma update_first_call_witness :
  let p : @PoolsWithErrorCount (Scenario.env []) :=
    Scenario.replicas [Scenario.replica 0 0 8; Scenario.replica 1 3 5] 0 0 in
  ∃ p', update p {| Scenario.clock := 125 |}
        = Some (state <$> pools p', p', {| Scenario.clock := 125 |})
        ∧ last_decrease_time p' = 125
        ∧ error_counts (pools p') = error_counts (pools p).
Proof.
  intros p.
  apply (@update_first_call (Scenario.env []) p
           {| Scenario.clock := 125 |} {| Scenario.clock := 125 |} 125).
  - reflexivity.
  - reflexivity.
Defined.

(** X6. Halving: when a decay time is recorded, the period is positive and
    [k] full periods have passed since, with [k] from 1 to 7, [update]
    divides every error count by two [k] times, rounding down, and records
    the time just read. *)
Theorem update_halves `{Env : Environment}
    (p : PoolsWithErrorCount) (w w' : World) (now k : Z) :
  time w = (now, w') →
  last_decrease_time p ≠ 0 →
  0 < decrease_error_period p →
  1 ≤ k ≤ 7 →
  k * decrease_error_period p ≤ now - last_decrease_time p
    < (k + 1) * decrease_error_period p →
  ∃ p', update p w = Some (state <$> pools p', p', w')
        ∧ last_decrease_time p' = now
        ∧ error_counts (pools p') = (λ e, e / 2 ^ k) <$> error_counts (pools p).
Proof.
  intros Ht H0 Hperiod Hk Hdelta.
  assert (Hq : (now - last_decrease_time p) ÷ decrease_error_period p = k).
  { rewrite Z.quot_div_nonneg by nia.
    symmetry. apply (Z.div_unique_pos _ _ k
      (now - last_decrease_time p - k * decrease_error_period p)); nia. }
  rewrite (update_cases p w w' now Ht). simpl. rewrite Hq.
  assert (Hw : wrap64 k = k) by (unfold wrap64; apply Z.mod_small; lia).
  rewrite Hw. unfold sizeof_UInt64.
  rewrite bool_decide_eq_false_2 by done.
  rewrite bool_decide_eq_false_2 by lia.
  rewrite bool_decide_eq_false_2 by lia.
  rewrite bool_decide_eq_false_2 by lia.
  rewrite bool_decide_eq_false_2 by lia.
  exists (Build_PoolsWithErrorCount
            (with_error_count (λ e, e ≫ k) <$> (randomize <$> pools p))
            now (decrease_error_period p)).
  simpl. split; [done|]. split; [done|].
  rewrite error_counts_with, error_counts_randomize.
  apply list_fmap_ext. intros _ e _. apply Z.shiftr_div_pow2. lia.
Qed.

Lemma update_halves_witness :
  let p : @PoolsWithErrorCount (Scenario.env []) :=
    Scenario.replicas [Scenario.replica 0 0 8; Scenario.replica 1 3 5] 100 10 in
  ∃ p', update p {| Scenario.clock := 125 |}
        = Some (state <$> pools p', p', {| Scenario.clock := 125 |})
        ∧ last_decrease_time p' = 125
        ∧ error_counts (pools p') = (λ e, e / 2 ^ 2) <$> error_counts (pools p).
Proof.
  intros p.
  apply (@update_halves (Scenario.env []) p
           {| Scenario.clock := 125 |} {| Scenario.clock := 125 |} 125 2).
  - reflexivity.
  - simpl. lia.
  - simpl. lia.
  - lia.
  - simpl. lia.
Defined.

(** X7. A long silence: when a decay time is recorded, the period is
    positive and at least 64 periods have passed (the times being those of a
    64-bit clock, less than 2^63 apart), [update] sets every error count to
    zero and records the time just read. *)
Theorem update_clears_after_long_silence `{Env : Environment}
    (p : PoolsWithErrorCount) (w w' : World) (now : Z) :
  time w = (now, w') →
  last_decrease_time p ≠ 0 →
  0 < decrease_error_period p →
  64 * decrease_error_period p ≤ now - last_decrease_time p < 2 ^ 63 →
  ∃ p', update p w = Some (state <$> pools p', p', w')
        ∧ last_decrease_time p' = now
        ∧ Forall (λ e, e = 0) (error_counts (pools p')).
Proof.
  intros Ht H0 Hperiod Hdelta.
  assert (Hq : 64 ≤ (now - last_decrease_time p) ÷ decrease_error_period p < 2 ^ 63).
  { rewrite Z.quot_div_nonneg by lia. split.
    - apply Z.div_le_lower_bound; lia.
    - apply Z.div_lt_upper_bound; nia. }
  assert (Hw : wrap64 ((now - last_decrease_time p) ÷ decrease_error_period p)
               = (now - last_decrease_time p) ÷ decrease_error_period p).
  { unfold wrap64. apply Z.mod_small. lia. }
  rewrite (update_cases p w w' now Ht). simpl. rewrite Hw. unfold sizeof_UInt64.
  rewrite bool_decide_eq_false_2 by done.
  rewrite bool_decide_eq_false_2 by lia.
  rewrite bool_decide_eq_false_2 by lia.
  rewrite bool_decide_eq_false_2 by lia.
  rewrite bool_decide_eq_true_2 by lia.
  exists (Build_PoolsWithErrorCount
            (with_error_count (λ _, 0) <$> (randomize <$> pools p))
            now (decrease_error_period p)).
  simpl. split; [done|]. split; [done|].
  rewrite error_counts_with. apply Forall_fmap, Forall_forall. done.
Qed.

Lemma update_clears_after_long_silence_witness :
  let p : @PoolsWithErrorCount (Scenario.env []) :=
    Scenario.replicas [Scenario.replica 0 0 8; Scenario.replica 1 3 5] 100 10 in
  ∃ p', update p {| Scenario.clock := 1000 |}
        = Some (state <$> pools p', p', {| Scenario.clock := 1000 |})
        ∧ last_decrease_time p' = 1000
        ∧ Forall (λ e, e = 0) (error_counts (pools p')).
Proof.
  intros p.
  apply (@update_clears_after_long_silence (Scenario.env []) p
           {| Scenario.clock := 1000 |} {| Scenario.clock := 1000 |} 1000).
  - reflexivity.
  - simpl. lia.
  - simpl. lia.
  - simpl. lia.
Defined.

(** X8. What [update] leaves alone: with a period that is not zero it is
    defined, and the pools keep their number, their nested pools, their
    priorities and the period; the states returned are those of the pools as
    [update] leaves them, and every random number is one of a [UInt32]. *)
Theorem update_frame `{Env : Environment} (p : PoolsWithErrorCount) (w : World) :
  decrease_error_period p ≠ 0 →
  ∃ states p',
    update p w = Some (states, p', (time w).2)
    ∧ states = state <$> pools p'
    ∧ pool <$> pools p' = pool <$> pools p
    ∧ (λ q, priority (state q)) <$> pools p' = (λ q, priority (state q)) <$> pools p
    ∧ length (pools p') = length (pools p)
    ∧ decrease_error_period p' = decrease_error_period p
    ∧ Forall (λ st, 0 ≤ random st < 2 ^ 32) states.
Proof.
  intros Hperiod. destruct (time w) as [now w'] eqn:Ht.
  rewrite (update_cases p w w' now Ht). simpl.
  assert (Hr := randoms_randomize (pools p)).
  repeat case_bool_decide; try done;
    (eexists _, _; split; [reflexivity|]; simpl;
     rewrite ?pools_with, ?pools_randomize, ?priorities_with, ?priorities_randomize,
       ?length_fmap;
     repeat split; try done;
     apply Forall_fmap; try apply randoms_with; exact Hr).
Qed.

Lemma update_frame_witness :
  let p : @PoolsWithErrorCount (Scenario.env []) :=
    Scenario.replicas [Scenario.replica 0 0 8; Scenario.replica 1 3 5] 100 10 in
  ∃ states p',
    update p {| Scenario.clock := 125 |}
    = Some (states, p', (@time (Scenario.env []) {| Scenario.clock := 125 |}).2)
    ∧ states = state <$> pools p'
    ∧ pool <$> pools p' = pool <$> pools p
    ∧ (λ q, priority (state q)) <$> pools p' = (λ q, priority (state q)) <$> pools p
    ∧ length (pools p') = length (pools p)
    ∧ decrease_error_period p' = decrease_error_period p
    ∧ Forall (λ st, 0 ≤ random st < 2 ^ 32) states.
Proof.
  intros p.
  apply (@update_frame (Scenario.env []) p {| Scenario.clock := 125 |}).
  simpl. lia.
Defined.

(** X9. The decay never raises a count: if the error counts are those of a
    [UInt64] and the period is not zero, every error count after [update] is
    between zero and what it was before. *)
Theorem update_never_raises `{Env : Environment} (p : PoolsWithErrorCount) (w : World) :
  decrease_error_period p ≠ 0 →
  Forall (λ e, 0 ≤ e < 2 ^ 64) (error_counts (pools p)) →
  ∃ states p' w',
    update p w = Some (states, p', w')
    ∧ Forall2 (λ e' e, 0 ≤ e' ≤ e) (error_counts (pools p')) (error_counts (pools p)).
Proof.
  intros Hperiod Hrange. destruct (time w) as [now w'] eqn:Ht.
  rewrite (update_cases p w w' now Ht). simpl.
  assert (Hsame : Forall2 (λ e' e, 0 ≤ e' ≤ e)
                    (error_counts (pools p)) (error_counts (pools p))).
  { apply Forall_Forall2_diag. eapply Forall_impl; [exact Hrange|].
    simpl. intros e He. lia. }
  repeat case_bool_decide; try done;
    (eexists _, _, _; split; [reflexivity|]; simpl;
     rewrite ?error_counts_with, ?error_counts_randomize; try exact Hsame).
  - apply Forall2_fmap_l, Forall_Forall2_diag.
    eapply Forall_impl; [exact Hrange|]. simpl. intros e He. lia.
  - apply Forall2_fmap_l, Forall_Forall2_diag.
    eapply Forall_impl; [exact Hrange|]. simpl. intros e He.
    set (s := wrap64 ((now - last_decrease_time p) ÷ decrease_error_period p)) in *.
    assert (0 ≤ s) by (unfold s, wrap64; apply Z.mod_pos_bound; lia).
    rewrite Z.shiftr_div_pow2 by done.
    assert (0 < 2 ^ s) by (apply Z.pow_pos_nonneg; lia).
    split.
    + apply Z.div_pos; lia.
    + apply Z.div_le_upper_bound; nia.
Qed.

Lemma update_never_raises_witness :
  let p : @PoolsWithErrorCount (Scenario.env []) :=
    Scenario.replicas [Scenario.replica 0 0 8; Scenario.replica 1 3 5] 100 10 in
  ∃ states p' w',
    update p {| Scenario.clock := 125 |} = Some (states, p', w')
    ∧ Forall2 (λ e' e, 0 ≤ e' ≤ e) (error_counts (pools p')) (error_counts (pools p)).
Proof.
  intros p.
  apply (@update_never_raises (Scenario.env []) p {| Scenario.clock := 125 |}).
  - simpl. lia.
  - repeat constructor; simpl; lia.
Defined.

(** ** joinLines *)

Lemma std_replace_get (old_value new_value : Ascii.ascii) (s : string) (n : nat) :
  String.get n (std_replace old_value new_value s)
  = (λ c, if Ascii.eqb c old_value then new_value else c) <$> String.get n s.
Proof.
  revert n. induction s as [|c s IH]; intros n; simpl; [done|].
  destruct n as [|n]; simpl; [done|]. apply IH.
Qed.

Lemma std_replace_app (old_value new_value : Ascii.ascii) (s1 s2 : string) :
  std_replace old_value new_value (s1 +:+ s2)
  = std_replace old_value new_value s1 +:+ std_replace old_value new_value s2.
Proof.
  induction s1 as [|c s1 IH]; [done|].
  change (String c s1 +:+ s2) with (String c (s1 +:+ s2)).
  simpl. rewrite IH. done.
Qed.

(** X10. [joinLines] changes a query character by character: the result has
    the length of the query, a space wherever the query has a line feed and
    the character of the query everywhere else; so the result has no line
    feed. *)
Theorem joinLines_pointwise (query : string) :
  String.length (joinLines query) = String.length query
  ∧ (∀ n, String.get n (joinLines query)
          = (λ c, if Ascii.eqb c line_feed then space else c) <$> String.get n query)
  ∧ (∀ n, String.get n (joinLines query) ≠ Some line_feed).
Proof.
  unfold joinLines. split; [|split].
  - induction query as [|c s IH]; simpl; [done|]. by rewrite IH.
  - intros n. apply std_replace_get.
  - intros n. rewrite std_replace_get.
    destruct (String.get n query) as [c|]; simpl; [|done].
    destruct (Ascii.eqb_spec c line_feed) as [->|Hne].
    + intros H. by vm_compute in H.
    + intros H. by injection H.
Qed.

(** X11. [joinLines] of two texts put together is the two results put
    together; applying it twice is applying it once; and it returns a query
    unchanged exactly when the query has no line feed. *)
Theorem joinLines_algebra :
  (∀ s1 s2, joinLines (s1 +:+ s2) = joinLines s1 +:+ joinLines s2)
  ∧ (∀ query, joinLines (joinLines query) = joinLines query)
  ∧ (∀ query, joinLines query = query
              ↔ ∀ n, String.get n query ≠ Some line_feed).
Proof.
  unfold joinLines. split; [|split].
  - intros s1 s2. apply std_replace_app.
  - intros query. induction query as [|c s IH]; simpl; [done|]. rewrite IH.
    f_equal. destruct (Ascii.eqb_spec c line_feed) as [->|Hne]; [done|].
    by destruct (Ascii.eqb_spec c line_feed).
  - intros query. induction query as [|c s IH]; simpl.
    + split; [|done]. intros _ n. by destruct n.
    + split.
      * intros [= Hc Hs] n. destruct n as [|n]; simpl.
        -- destruct (Ascii.eqb_spec c line_feed) as [->|Hne]; [|congruence].
           by vm_compute in Hc.
        -- by apply IH.
      * intros Hn. f_equal.
        -- destruct (Ascii.eqb_spec c line_feed) as [->|Hne]; [|done].
           by specialize (Hn 0%nat).
        -- apply IH. intros n. apply (Hn (S n)).
Qed.

(** ** One call of getResource, from outside *)

Section ResourceExtras.
Context `{Env : Environment}.

Lemma schedule_elem (order : list nat) (tries : nat) :
  ∀ try_no r i,
    (r, i) ∈ schedule tries try_no order →
    (try_no ≤ r < try_no + tries)%nat ∧ i ∈ order.
Proof.
  induction tries as [|tries IH]; intros try_no r i Hin; simpl in Hin.
  - by apply elem_of_nil in Hin.
  - apply elem_of_app in Hin as [Hin|Hin].
    + apply list_elem_of_fmap in Hin as (j & [= -> ->] & Hj). split; [lia|done].
    + apply IH in Hin as [Hr Hi]. split; [lia|done].
Qed.

Lemma schedule_first_round (order : list nat) (tries try_no a : nat) :
  (1 ≤ tries)%nat → (a < length order)%nat →
  schedule tries try_no order !! a = (λ i, (try_no, i)) <$> order !! a.
Proof.
  intros Ht Ha. destruct tries as [|tries]; [lia|]. simpl.
  rewrite lookup_app_l by (by rewrite length_fmap).
  apply list_lookup_fmap.
Qed.

(** A candidate whose [tryGet] always succeeds ends the call in the first
    round. *)
Lemma getResource_live (entry : Entry) (fail_messages : string)
    (rt : option ResourceTracker.t) (settings : option Settings) (m : Process)
    (i : nat) (np : NestedPoolPtr) :
  decrease_error_period (nested_pools m) ≠ 0 →
  tracker_ok (length (pool_handles m)) rt →
  (1 ≤ max_tries m)%nat →
  i ∈ candidates rt (length (pool_handles m)) →
  pool_handles m !! i = Some np →
  (∀ s e w, (tryGet np s e w).1.1.1 = true) →
  ∃ order entry' fail_messages' rt' m' ps fails,
    getResource entry fail_messages rt settings m
    = Some (true, entry', fail_messages', rt', m')
    ∧ order ≡ₚ candidates rt (length (pool_handles m))
    ∧ resourced (length (pool_handles m)) (schedule (max_tries m) 0 order)
        true entry' fail_messages fail_messages' rt rt' m m' ps fails
    ∧ (length ps ≤ length order)%nat
    ∧ Forall (λ p, probe_try_no p = 0%nat) ps.
Proof.
  intros Hperiod Hok Htries Hi Hnp Hlive.
  destruct (getResource_spec entry fail_messages rt settings m)
    as (states & np' & w1 & order & ok & entry' & fm' & rt' & m' & ps & fails
        & _ & Hget & Horder & _ & _ & Hres); [by apply update_defined|done|].
  assert (Hio : i ∈ order) by (by rewrite Horder).
  apply list_elem_of_lookup in Hio as [a Ha].
  assert (Han : (a < length order)%nat) by (by eapply lookup_lt_Some).
  assert (Hlive' : ∀ p, p ∈ ps → probe_pool p = i → probe_ok p = true).
  { intros p Hp Hpi.
    destruct Hres as (_ & Hg & _). rewrite Forall_forall in Hg.
    destruct (Hg p Hp) as (np1 & s & e & w & Hnp1 & <-).
    rewrite Hpi, Hnp in Hnp1. injection Hnp1 as <-. apply Hlive. }
  assert (Hkey : ∀ b p, ps !! b = Some p → (b < length order)%nat →
            probe_try_no p = 0%nat ∧ order !! b = Some (probe_pool p)).
  { intros b p Hb Hbn.
    assert (Hpre : probe_key <$> ps `prefix_of` schedule (max_tries m) 0 order).
    { destruct Hres as (_&_&_&_&_&_&_&_&_& Hcase). destruct ok.
      - by destruct Hcase as (_ & p' & _ & _ & _ & ? & _).
      - destruct Hcase as (_ & _ & -> & _). done. }
    assert (Hk : (probe_key <$> ps) !! b = Some (probe_key p))
      by (by rewrite list_lookup_fmap, Hb).
    eapply prefix_lookup_Some in Hk; [|exact Hpre].
    rewrite schedule_first_round in Hk by done.
    destruct (order !! b) as [j|]; simplify_eq/=.
    unfold probe_key in Hk. by injection Hk as <- <-. }
  assert (Hfails : ∀ b p, fails !! b = Some p → ps !! b = Some p).
  { intros b p Hb. destruct Hres as (_&_&_&_&_&_&_&_&_& Hcase). destruct ok.
    - destruct Hcase as (_ & p' & -> & _). by apply lookup_app_l_Some.
    - destruct Hcase as (_ & -> & _). done. }
  assert (Hshort : (length fails ≤ a)%nat).
  { destruct (decide (length fails ≤ a)%nat) as [|Hn]; [done|]. exfalso.
    destruct (lookup_lt_is_Some_2 fails a) as [p Hp]; [lia|].
    destruct (Hkey a p (Hfails _ _ Hp) Han) as [_ Hpool].
    rewrite Ha in Hpool. injection Hpool as Hpool.
    destruct Hres as (_ & _ & Hf & _). rewrite Forall_lookup in Hf.
    specialize (Hf _ _ Hp). simpl in Hf.
    rewrite Hlive' in Hf; [done| |done].
    eapply list_elem_of_lookup_2. by apply Hfails. }
  destruct ok.
  - exists order, entry', fm', rt', m', ps, fails.
    split; [done|]. split; [done|]. split; [done|].
    assert (Hlen : (length ps ≤ length order)%nat).
    { destruct Hres as (_&_&_&_&_&_&_&_&_& _ & p & -> & _).
      rewrite length_app. simpl. lia. }
    split; [done|].
    apply Forall_lookup. intros b p Hb.
    apply (Hkey b p Hb). apply lookup_lt_Some in Hb. lia.
  - exfalso. destruct Hres as (_&_&_&_&_&_&_&_&_& _ & Hps & Hk & _). subst fails.
    assert (Hl := schedule_length (max_tries m) 0 order).
    rewrite <- Hk, length_fmap in Hl. nia.
Qed.

End ResourceExtras.

(** X12. The effort of one call of [getResource] is bounded: with a period
    that is not zero and a proper tracker (or none), it makes at most
    [max_tries] calls of [tryGet] per candidate, each on a candidate and in a
    try below [max_tries]. *)
Theorem getResource_bounded_calls `{Env : Environment}
    (entry : Entry) (fail_messages : string) (rt : option ResourceTracker.t)
    (settings : option Settings) (m : Process) :
  decrease_error_period (nested_pools m) ≠ 0 →
  tracker_ok (length (pool_handles m)) rt →
  ∃ ok entry' fail_messages' rt' m' ps,
    getResource entry fail_messages rt settings m
    = Some (ok, entry', fail_messages', rt', m')
    ∧ probes m' = probes m ++ ps
    ∧ (length ps ≤ max_tries m * length (candidates rt (length (pool_handles m))))%nat
    ∧ Forall (λ p, probe_pool p ∈ candidates rt (length (pool_handles m))
                    ∧ (probe_try_no p < max_tries m)%nat) ps.
Proof.
  intros Hperiod Hok.
  destruct (getResource_spec entry fail_messages rt settings m)
    as (states & np & w1 & order & ok & entry' & fm' & rt' & m' & ps & fails
        & _ & Hget & Horder & _ & _ & Hres); [by apply update_defined|done|].
  exists ok, entry', fm', rt', m', ps. split; [done|].
  assert (Hpre : probe_key <$> ps `prefix_of` schedule (max_tries m) 0 order).
  { destruct Hres as (_&_&_&_&_&_&_&_&_& Hcase). destruct ok.
    - by destruct Hcase as (_ & p' & _ & _ & _ & ? & _).
    - destruct Hcase as (_ & _ & -> & _). done. }
  split; [apply Hres|]. split.
  - apply prefix_length in Hpre.
    rewrite length_fmap, schedule_length in Hpre.
    apply Permutation_length in Horder. by rewrite <- Horder.
  - apply Forall_forall. intros p Hp.
    assert (Hin : probe_key p ∈ schedule (max_tries m) 0 order).
    { destruct Hpre as [k ->]. apply elem_of_app. left.
      by apply list_elem_of_fmap_2. }
    apply schedule_elem in Hin as [Hr Hi]. rewrite <- Horder. split; [done|lia].
Qed.

Lemma getResource_bounded_calls_witness :
  let m := Scenario.process [2%nat]
             [Scenario.replica 0 0 5; Scenario.replica 1 0 0; Scenario.replica 2 (-1) 7]
             100 10 3 125 in
  ∃ ok entry' fail_messages' rt' m' ps,
    @getResource (Scenario.env [2%nat]) None EmptyString None None m
    = Some (ok, entry', fail_messages', rt', m')
    ∧ probes m' = probes m ++ ps
    ∧ (length ps ≤ max_tries m * length (candidates None (length (pool_handles m))))%nat
    ∧ Forall (λ p, probe_pool p ∈ candidates None (length (pool_handles m))
                    ∧ (probe_try_no p < max_tries m)%nat) ps.
Proof.
  intros m.
  apply (@getResource_bounded_calls (Scenario.env [2%nat]) None EmptyString None None m).
  - simpl. lia.
  - exact I.
Defined.



Section ChargeFacts.
Context `{Env : Environment}.

Lemma try_pools_charges (settings : option Settings) (try_no : nat)
    (pool_ptrs : list IndexedPoolWithErrorCount) :
  ∀ entry fail_messages m found entry' fail_messages' m',
    try_pools settings try_no pool_ptrs entry fail_messages m
    = Some (found, entry', fail_messages', m') →
    ∃ ps, probes m' = probes m ++ ps
          ∧ pools (nested_pools m') = foldl charge (pools (nested_pools m)) ps
          ∧ last_decrease_time (nested_pools m') = last_decrease_time (nested_pools m).
Proof.
  induction pool_ptrs as [|record rest IH];
    intros entry fm m found entry' fm' m' Heq; simpl in Heq.
  - injection Heq as <- <- <- <-. exists []. by rewrite app_nil_r.
  - destruct (pools (nested_pools m) !! ptr_pool record) as [p|] eqn:Hp; [|done].
    simpl in Heq.
    destruct (tryGet (pool p) settings entry (world m))
      as [[[ok entry1] fail_message] w1] eqn:Htry.
    destruct ok.
    + injection Heq as <- <- <- <-. simpl. eexists [_]. split; [done|]. done.
    + apply IH in Heq as (ps & Hps & Hpools & Hlast). simpl in *.
      eexists (_ :: ps). split; [|split; [|done]].
      * rewrite Hps, <- app_assoc. done.
      * rewrite Hpools. done.
Qed.

Lemma try_loop_charges (settings : option Settings)
    (pool_ptrs : list IndexedPoolWithErrorCount) (tries_left : nat) :
  ∀ try_no entry fail_messages m found entry' fail_messages' m',
    try_loop settings tries_left try_no pool_ptrs entry fail_messages m
    = Some (found, entry', fail_messages', m') →
    ∃ ps, probes m' = probes m ++ ps
          ∧ pools (nested_pools m') = foldl charge (pools (nested_pools m)) ps
          ∧ last_decrease_time (nested_pools m') = last_decrease_time (nested_pools m).
Proof.
  induction tries_left as [|tries_left IH];
    intros try_no entry fm m found entry' fm' m' Heq; simpl in Heq.
  - injection Heq as <- <- <- <-. exists []. by rewrite app_nil_r.
  - destruct (try_pools settings try_no pool_ptrs entry fm m)
      as [[[[found1 entry1] fm1] m1]|] eqn:Hround; [|done].
    simpl in Heq.
    apply try_pools_charges in Hround as (ps1 & Hps1 & Hpools1 & Hlast1).
    destruct found1 as [record|].
    + injection Heq as <- <- <- <-. by exists ps1.
    + apply IH in Heq as (ps2 & Hps2 & Hpools2 & Hlast2).
      exists (ps1 ++ ps2). split; [|split].
      * by rewrite Hps2, Hps1, app_assoc.
      * by rewrite Hpools2, Hpools1, foldl_app.
      * by rewrite Hlast2.
Qed.

Lemma getResource_charges (entry : Entry) (fail_messages : string)
    (rt : option ResourceTracker.t) (settings : option Settings) (m : Process)
    ok entry' fail_messages' rt' m' states np w1 :
  getResource entry fail_messages rt settings m
  = Some (ok, entry', fail_messages', rt', m') →
  update (nested_pools m) (world m) = Some (states, np, w1) →
  ∃ ps, probes m' = probes m ++ ps
        ∧ pools (nested_pools m') = foldl charge (pools np) ps
        ∧ last_decrease_time (nested_pools m') = last_decrease_time np.
Proof.
  intros Hget Hu. unfold getResource in Hget. rewrite Hu in Hget. simpl in Hget.
  destruct (make_pool_ptrs rt states _) as [pool_ptrs|]; [|done]. simpl in Hget.
  destruct (try_loop settings (max_tries m) 0 (sort_pool_ptrs pool_ptrs) entry
              fail_messages _) as [[[[found e1] fm1] m2]|] eqn:Hloop; [|done].
  simpl in Hget.
  apply try_loop_charges in Hloop as (ps & Hps & Hpools & Hlast). simpl in *.
  exists ps. destruct found as [record|].
  - destruct (match rt with
              | Some t => Some <$> ResourceTracker.markAsAllocated t (index record)
              | None => Some None
              end); [|done].
    simpl in Hget. injection Hget as <- <- <- <- <-. done.
  - injection Hget as <- <- <- <- <-. done.
Qed.

Lemma bump_iter (k : nat) (e : Z) :
  0 ≤ e < 2 ^ 64 →
  Nat.iter k (λ e, wrap64 (e + 1)) e = wrap64 (e + Z.of_nat k).
Proof.
  intros He. induction k as [|k IH].
  - simpl. unfold wrap64. rewrite Z.add_0_r. symmetry. by apply Z.mod_small.
  - simpl. rewrite IH. unfold wrap64.
    rewrite Zplus_mod_idemp_l. f_equal. lia.
Qed.

Lemma iter_shift {A : Type} (f : A → A) (k : nat) (x : A) :
  Nat.iter k f (f x) = f (Nat.iter k f x).
Proof. induction k as [|k IH]; simpl; [done|]. by rewrite IH. Qed.

Lemma charge_lookup (ps : list Probe) :
  ∀ (l : list PoolWithErrorCount) (i : nat) (q : PoolWithErrorCount),
    l !! i = Some q →
    ∃ q', foldl charge l ps !! i = Some q'
          ∧ pool q' = pool q
          ∧ priority (state q') = priority (state q)
          ∧ random (state q') = random (state q)
          ∧ error_count (state q')
            = Nat.iter (fails_on i ps) (λ e, wrap64 (e + 1)) (error_count (state q)).
Proof.
  induction ps as [|p ps IH]; intros l i q Hq; simpl.
  - by exists q.
  - unfold fails_on. unfold charge at 2. destruct (probe_ok p) eqn:Hok.
    + rewrite filter_cons_False by (intros [_ ?]; congruence). by apply IH.
    + destruct (decide (probe_pool p = i)) as [Hpi|Hpi].
      * rewrite filter_cons_True by done. simpl.
        destruct (IH (alter (with_error_count (λ e, wrap64 (e + 1))) (probe_pool p) l)
                     i (with_error_count (λ e, wrap64 (e + 1)) q))
          as (q' & Hq' & Hpool & Hprio & Hrand & Herr).
        { rewrite Hpi, list_lookup_alter_eq, Hq. done. }
        exists q'. split; [done|]. split; [done|]. split; [done|]. split; [done|].
        rewrite Herr.
        exact (iter_shift (λ e, wrap64 (e + 1)) (fails_on i ps) (error_count (state q))).
      * rewrite filter_cons_False by (intros [? _]; congruence).
        apply IH. by rewrite list_lookup_alter_ne.
Qed.

End ChargeFacts.

(** X14. The error counts after a call of [getResource]: the count of each
    pool is the count in the states that [update] returned, a count of a
    [UInt64], plus the number of failed calls of [tryGet] on that pool,
    modulo 2^64.  Priorities, random numbers and [last_decrease_time] are as
    [update] left them. *)
Theorem getResource_error_accounting `{Env : Environment}
    (entry : Entry) (fail_messages : string) (rt : option ResourceTracker.t)
    (settings : option Settings) (m : Process) :
  decrease_error_period (nested_pools m) ≠ 0 →
  tracker_ok (length (pool_handles m)) rt →
  ∃ states np w1 ok entry' fail_messages' rt' m' ps,
    update (nested_pools m) (world m) = Some (states, np, w1)
    ∧ getResource entry fail_messages rt settings m
      = Some (ok, entry', fail_messages', rt', m')
    ∧ probes m' = probes m ++ ps
    ∧ last_decrease_time (nested_pools m') = last_decrease_time np
    ∧ ∀ i st,
        states !! i = Some st →
        0 ≤ error_count st < 2 ^ 64 →
        ∃ q, pools (nested_pools m') !! i = Some q
             ∧ priority (state q) = priority st
             ∧ random (state q) = random st
             ∧ error_count (state q)
               = wrap64 (error_count st + Z.of_nat (fails_on i ps)).
Proof.
  intros Hperiod Hok.
  destruct (getResource_spec entry fail_messages rt settings m)
    as (states & np & w1 & order & ok & entry' & fm' & rt' & m' & ps0 & fails
        & Hu & Hget & _); [by apply update_defined|done|].
  destruct (getResource_charges _ _ _ _ _ _ _ _ _ _ _ _ _ Hget Hu)
    as (ps & Hps & Hpools & Hlast).
  exists states, np, w1, ok, entry', fm', rt', m', ps.
  split; [done|]. split; [done|]. split; [done|]. split; [done|].
  intros i st Hst Hrange.
  apply update_shape in Hu as (-> & _).
  rewrite list_lookup_fmap in Hst.
  destruct (pools np !! i) as [q0|] eqn:Hq0; [|done]. injection Hst as <-.
  destruct (charge_lookup ps (pools np) i q0 Hq0)
    as (q & Hq & _ & Hprio & Hrand & Herr).
  exists q. rewrite Hpools. split; [done|]. split; [done|]. split; [done|].
  rewrite Herr. by apply bump_iter.
Qed.

Lemma getResource_error_accounting_witness :
  let m := Scenario.process [2%nat]
             [Scenario.replica 0 0 5; Scenario.replica 1 0 0; Scenario.replica 2 (-1) 7]
             100 10 3 125 in
  ∃ states np w1 ok entry' fail_messages' rt' m' ps,
    update (nested_pools m) (world m) = Some (states, np, w1)
    ∧ @getResource (Scenario.env [2%nat]) None EmptyString None None m
      = Some (ok, entry', fail_messages', rt', m')
    ∧ probes m' = probes m ++ ps
    ∧ last_decrease_time (nested_pools m') = last_decrease_time np
    ∧ ∀ i st,
        states !! i = Some st →
        0 ≤ error_count st < 2 ^ 64 →
        ∃ q, pools (nested_pools m') !! i = Some q
             ∧ priority (state q) = priority st
             ∧ random (state q) = random st
             ∧ error_count (state q)
               = wrap64 (error_count st + Z.of_nat (fails_on i ps)).
Proof.
  intros m.
  apply (@getResource_error_accounting (Scenario.env [2%nat])
           None EmptyString None None m).
  - simpl. lia.
  - exact I.
Defined.

(** X15. What [getResource] does to its tracker.  When it returns [true],
    the unallocated size has dropped by exactly one and the candidates of the
    next call are the candidates of this one without the replica whose
    [tryGet] succeeded; the handles are still a rearrangement of the old
    ones.  When it returns [false] the tracker is as it was. *)
Theorem getResource_tracker_step `{Env : Environment}
    (entry : Entry) (fail_messages : string) (t : ResourceTracker.t)
    (settings : option Settings) (m : Process) :
  decrease_error_period (nested_pools m) ≠ 0 →
  tracker_ok (length (pool_handles m)) (Some t) →
  ∃ ok entry' fail_messages' t' m' ps,
    getResource entry fail_messages (Some t) settings m
    = Some (ok, entry', fail_messages', Some t', m')
    ∧ probes m' = probes m ++ ps
    ∧ ResourceTracker.handles t' ≡ₚ ResourceTracker.handles t
    ∧ (ok = false → t' = t)
    ∧ (ok = true →
       ResourceTracker.unallocated_size t = S (ResourceTracker.unallocated_size t')
       ∧ ∃ p, last ps = Some p
              ∧ probe_ok p = true
              ∧ candidates (Some t) (length (pool_handles m))
                ≡ₚ probe_pool p :: candidates (Some t') (length (pool_handles m))).
Proof.
  intros Hperiod Hok.
  destruct (getResource_spec entry fail_messages (Some t) settings m)
    as (states & np & w1 & order & ok & entry' & fm' & rt' & m' & ps & fails
        & _ & Hget & _ & _ & _ & Hres); [by apply update_defined|done|].
  destruct Hres as (Hp & _ & _ & _ & _ & _ & _ & _ & Hok' & Hcase).
  destruct ok.
  - destruct Hcase as (_ & p & -> & Hpok & _ & _ & t' & -> & Hc).
    exists true, entry', fm', t', m', (fails ++ [p]).
    split; [done|]. split; [done|].
    split; [destruct Hok as [-> _]; by destruct Hok' as [-> _]|].
    split; [done|]. intros _. split.
    + apply Permutation_length in Hc.
      rewrite (candidates_length _ _ Hok) in Hc.
      cbn [length] in Hc. by rewrite (candidates_length _ _ Hok') in Hc.
    + exists p. split; [apply last_snoc|done].
  - destruct Hcase as (_ & _ & _ & ->).
    exists false, entry', fm', t, m', ps. repeat split; done.
Qed.

Lemma getResource_tracker_step_witness :
  let m := Scenario.process [2%nat]
             [Scenario.replica 0 0 5; Scenario.replica 1 0 0; Scenario.replica 2 (-1) 7]
             100 10 3 125 in
  let t := ResourceTracker.create 3 in
  ∃ ok entry' fail_messages' t' m' ps,
    @getResource (Scenario.env [2%nat]) None EmptyString (Some t) None m
    = Some (ok, entry', fail_messages', Some t', m')
    ∧ probes m' = probes m ++ ps
    ∧ ResourceTracker.handles t' ≡ₚ ResourceTracker.handles t
    ∧ (ok = false → t' = t)
    ∧ (ok = true →
       ResourceTracker.unallocated_size t = S (ResourceTracker.unallocated_size t')
       ∧ ∃ p, last ps = Some p
              ∧ probe_ok p = true
              ∧ candidates (Some t) (length (pool_handles m))
                ≡ₚ probe_pool p :: candidates (Some t') (length (pool_handles m))).
Proof.
  intros m t.
  apply (@getResource_tracker_step (Scenario.env [2%nat]) None EmptyString t None m).
  - simpl. lia.
  - split; [reflexivity|simpl; lia].
Defined.

(** X16. One live replica is enough.  If at least one try is allowed and one
    of the candidates is a replica whose [tryGet] succeeds whenever it is
    called, [getResource] returns [true], and it does so within the first
    round: every call it makes has try number 0 and there are no more calls
    than candidates. *)
Theorem getResource_one_live_replica `{Env : Environment}
    (entry : Entry) (fail_messages : string) (rt : option ResourceTracker.t)
    (settings : option Settings) (m : Process) (i : nat) (np : NestedPoolPtr) :
  decrease_error_period (nested_pools m) ≠ 0 →
  tracker_ok (length (pool_handles m)) rt →
  (1 ≤ max_tries m)%nat →
  i ∈ candidates rt (length (pool_handles m)) →
  pool_handles m !! i = Some np →
  (∀ s e w, (tryGet np s e w).1.1.1 = true) →
  ∃ entry' fail_messages' rt' m' ps,
    getResource entry fail_messages rt settings m
    = Some (true, entry', fail_messages', rt', m')
    ∧ probes m' = probes m ++ ps
    ∧ (length ps ≤ length (candidates rt (length (pool_handles m))))%nat
    ∧ Forall (λ p, probe_try_no p = 0%nat) ps
    ∧ counters m' ProfileEvents.DistributedConnectionFailAtAll
      = counters m ProfileEvents.DistributedConnectionFailAtAll.
Proof.
  intros Hperiod Hok Htries Hi Hnp Hlive.
  destruct (getResource_live entry fail_messages rt settings m i np)
    as (order & entry' & fm' & rt' & m' & ps & fails & Hget & Horder & Hres
        & Hlen & Hzero); [done..|].
  exists entry', fm', rt', m', ps. split; [done|].
  destruct Hres as (Hp & _ & _ & _ & _ & _ & _ & _ & _ & Ha & _).
  split; [done|]. split.
  - apply Permutation_length in Horder. by rewrite <- Horder.
  - done.
Qed.

Lemma getResource_one_live_replica_witness :
  let m := Scenario.process [2%nat]
             [Scenario.replica 0 0 5; Scenario.replica 1 0 0; Scenario.replica 2 (-1) 7]
             100 10 3 125 in
  ∃ entry' fail_messages' rt' m' ps,
    @getResource (Scenario.env [2%nat]) None EmptyString None None m
    = Some (true, entry', fail_messages', rt', m')
    ∧ probes m' = probes m ++ ps
    ∧ (length ps ≤ length (candidates None (length (pool_handles m))))%nat
    ∧ Forall (λ p, probe_try_no p = 0%nat) ps
    ∧ counters m' ProfileEvents.DistributedConnectionFailAtAll
      = counters m ProfileEvents.DistributedConnectionFailAtAll.
Proof.
  intros m.
  apply (@getResource_one_live_replica (Scenario.env [2%nat])
           None EmptyString None None m 1%nat 1%nat).
  - simpl. lia.
  - exact I.
  - simpl. lia.
  - simpl. apply list_elem_of_In. simpl. tauto.
  - reflexivity.
  - intros s e w. reflexivity.
Defined.



(** ** getMany, from outside *)

Section GetManyExtras.
Context `{Env : Environment}.
Import ResourceTracker.

Lemma failed_all (l : list Probe) :
  Forall (λ p, probe_ok p = false) l → filter (λ p, probe_ok p = false) l = l.
Proof.
  induction 1 as [|p l Hp _ IH]; [done|].
  rewrite filter_cons_True by done. by rewrite IH.
Qed.

Lemma failed_one_success (p : Probe) :
  probe_ok p = true → filter (λ p, probe_ok p = false) [p] = [].
Proof. intros Hp. rewrite filter_cons_False; [done|congruence]. Qed.

Lemma getMany_loop_no_length_error (settings : option Settings) (skip : bool)
    (left : nat) :
  ∀ (i : nat) (rt : option ResourceTracker.t) (connections : list Entry)
    (m m' : Process),
    getMany_loop settings skip left i rt connections m
    ≠ Some (Throw_length_error, m').
Proof.
  induction left as [|left IH]; intros i rt connections m m'; [done|].
  simpl.
  destruct (getResource empty_entry EmptyString rt settings m)
    as [[[[[ok entry] fm] rt'] m1]|]; [|done].
  simpl. destruct ok; [apply IH|].
  by destruct ((i =? 0)%nat && negb skip).
Qed.

Lemma getMany_loop_outcome (settings : option Settings) (skip : bool) (left : nat) :
  ∀ (i : nat) (t : ResourceTracker.t) (connections : list Entry) (m : Process),
    decrease_error_period (nested_pools m) ≠ 0 →
    tracker_ok (length (pool_handles m)) (Some t) →
    ∃ out m' ps,
      getMany_loop settings skip left i (Some t) connections m = Some (out, m')
      ∧ probes m' = probes m ++ ps
      ∧ counters m' ProfileEvents.DistributedConnectionFailTry
        = (counters m ProfileEvents.DistributedConnectionFailTry
           + N.of_nat (length (filter (λ p, probe_ok p = false) ps)))%N
      ∧ (∀ exn, out = Throw exn →
           i = 0%nat ∧ skip = false
           ∧ Forall (λ p, probe_ok p = false) ps
           ∧ code exn = ALL_CONNECTION_TRIES_FAILED
           ∧ counters m' ProfileEvents.DistributedConnectionFailAtAll
             = (counters m ProfileEvents.DistributedConnectionFailAtAll + 1)%N)
      ∧ (∀ l, out = Return l →
           l = connections ++ (probe_entry <$> successes ps)
           ∧ ((length (successes ps) = left
               ∧ counters m' ProfileEvents.DistributedConnectionFailAtAll
                 = counters m ProfileEvents.DistributedConnectionFailAtAll)
              ∨ ((length (successes ps) < left)%nat
                 ∧ counters m' ProfileEvents.DistributedConnectionFailAtAll
                   = (counters m ProfileEvents.DistributedConnectionFailAtAll + 1)%N
                 ∧ (successes ps = [] → i ≠ 0%nat ∨ skip = true)))).
Proof.
  induction left as [|left IH]; intros i t connections m Hperiod Hok.
  - exists (Return connections), m, []. simpl. rewrite !app_nil_r, N.add_0_r.
    split; [done|]. split; [done|]. split; [done|]. split; [done|].
    intros l [= <-]. split; [done|]. by left.
  - destruct (getResource_spec empty_entry EmptyString (Some t) settings m)
      as (states & np & w1 & order & ok & e1 & fm1 & rt1 & m1 & ps1 & fails
          & _ & Hget & _ & _ & _ & Hres); [by apply update_defined|done|].
    destruct Hres as (Hp & _ & Hf & Hh & Hd & _ & Hc & _ & Hok1 & Hcase).
    simpl. rewrite Hget. simpl. destruct ok.
    + destruct Hcase as (Ha & p & Hps & Hpok & Hpe & _ & t' & -> & _).
      destruct (IH (S i) t' (connections ++ [e1]) m1)
        as (out & m' & ps2 & Hloop & Hp2 & Hc2 & Hthrow & Hret).
      * by rewrite Hd.
      * by rewrite Hh.
      * exists out, m', (ps1 ++ ps2).
        assert (Hs : successes (ps1 ++ ps2) = p :: successes ps2).
        { rewrite Hps, !successes_app, (successes_fails _ Hf).
          by rewrite (successes_one _ Hpok). }
        assert (Hfl : filter (λ p, probe_ok p = false) (ps1 ++ ps2)
                      = fails ++ filter (λ p, probe_ok p = false) ps2).
        { rewrite Hps, !filter_app, (failed_all _ Hf), (failed_one_success _ Hpok).
          by rewrite app_nil_r. }
        split; [done|]. split; [by rewrite Hp2, Hp, app_assoc|].
        split; [rewrite Hc2, Hc, Hfl, length_app; lia|].
        split.
        -- intros exn Hexn. destruct (Hthrow exn Hexn) as [? _]. lia.
        -- intros l Hl. destruct (Hret l Hl) as [-> Hcount]. rewrite Hs.
           split; [rewrite <- app_assoc; simpl; by rewrite Hpe|].
           destruct Hcount as [[Hn Hsame]|(Hn & Hplus & _)].
           ++ left. split; [simpl; lia|by rewrite Hsame].
           ++ right. split; [simpl; lia|]. split; [by rewrite Hplus, Ha|done].
    + destruct Hcase as (Ha & Hps & _ & _). subst ps1.
      assert (Hs := successes_fails _ Hf).
      assert (Hfl := failed_all _ Hf).
      destruct (i =? 0)%nat eqn:Hi; destruct skip eqn:Hskip; simpl.
      * eexists _, m1, fails. rewrite Hs, Hfl, app_nil_r.
        split; [done|]. split; [done|]. split; [done|]. split; [done|].
        intros l [= <-]. split; [done|]. right. split; [simpl; lia|].
        split; [done|]. intros _. by right.
      * eexists _, m1, fails. rewrite Hfl.
        split; [done|]. split; [done|]. split; [done|]. split; [|done].
        intros exn [= <-]. apply Nat.eqb_eq in Hi. done.
      * eexists _, m1, fails. rewrite Hs, Hfl, app_nil_r.
        split; [done|]. split; [done|]. split; [done|]. split; [done|].
        intros l [= <-]. split; [done|]. right. split; [simpl; lia|].
        split; [done|]. intros _. by right.
      * eexists _, m1, fails. rewrite Hs, Hfl, app_nil_r.
        split; [done|]. split; [done|]. split; [done|]. split; [done|].
        intros l [= <-]. split; [done|]. right. split; [simpl; lia|].
        split; [done|]. intros _. left. by apply Nat.eqb_neq.
Qed.


End GetManyExtras.

(** X18. When [getMany] throws and when it returns nothing.  With a period
    that is not zero, [getMany] throws [std::length_error] exactly when
    [max_parallel_replicas] (1 without settings) is above [max_size], and
    then before any call of [tryGet], leaving everything as it was.  It
    throws a [NetException] only if the setting [skip_unavailable_shards] is
    0 or there are no settings, and not one call of [tryGet] succeeded; the
    exception then has the code [ALL_CONNECTION_TRIES_FAILED].  It returns
    the empty list only if [skip_unavailable_shards] is there and not 0, or
    no connection was asked for. *)
Theorem getMany_throws_or_empty `{Env : Environment}
    (settings : option Settings) (m : Process) :
  decrease_error_period (nested_pools m) ≠ 0 →
  ∃ out m' ps,
    getMany settings m = Some (out, m')
    ∧ probes m' = probes m ++ ps
    ∧ (out = Throw_length_error
       ↔ (max_size < match settings with
                     | Some s => max_parallel_replicas s
                     | None => 1
                     end)%N)
    ∧ (out = Throw_length_error → m' = m ∧ ps = [])
    ∧ (∀ exn, out = Throw exn →
         match settings with
         | Some s => skip_unavailable_shards s = 0%N
         | None => True
         end
         ∧ Forall (λ p, probe_ok p = false) ps
         ∧ code exn = ALL_CONNECTION_TRIES_FAILED)
    ∧ (out = Return [] →
         ∃ s, settings = Some s
              ∧ (skip_unavailable_shards s ≠ 0%N ∨ max_parallel_replicas s = 0%N)).
Proof.
  intros Hperiod. unfold getMany.
  assert (Hmax : max_connections_of settings
                 = match settings with
                   | Some s => max_parallel_replicas s
                   | None => 1%N
                   end) by reflexivity.
  rewrite <- Hmax.
  destruct (max_size <? max_connections_of settings)%N eqn:Hfits.
  { apply N.ltb_lt in Hfits.
    exists Throw_length_error, m, []. rewrite app_nil_r.
    repeat split; try done. }
  apply N.ltb_ge in Hfits.
  destruct (getMany_loop_outcome settings (skip_unavailable_of settings)
              (N.to_nat (max_connections_of settings)) 0
              (ResourceTracker.create (length (pools (nested_pools m)))) [] m)
    as (out & m' & ps & Hloop & Hp & _ & Hthrow & Hret).
  - done.
  - unfold pool_handles. rewrite length_fmap. simpl. split; [done|lia].
  - assert (Hno : out ≠ Throw_length_error).
    { clear -Hloop. intros ->.
      by apply getMany_loop_no_length_error in Hloop. }
    exists out, m', ps. split; [done|]. split; [done|].
    split; [split; [done|lia]|]. split; [done|]. split.
    + intros exn Hexn. destruct (Hthrow exn Hexn) as (_ & Hskip & ? & ? & _).
      split; [|done]. destruct settings as [s|]; [|done].
      unfold skip_unavailable_of in Hskip.
      apply negb_false_iff, N.eqb_eq in Hskip. done.
    + intros Hout. destruct (Hret [] Hout) as [Hl Hcount]. simpl in Hl.
      symmetry in Hl. apply fmap_nil_inv in Hl.
      destruct Hcount as [[Hn _]|(Hn & _ & Hwhy)].
      * rewrite Hl in Hn. simpl in Hn.
        destruct settings as [s|]; [|simpl in Hn; lia].
        exists s. split; [done|]. right. simpl in Hn. lia.
      * destruct (Hwhy Hl) as [?|Hskip]; [done|].
        destruct settings as [s|]; [|done].
        exists s. split; [done|]. left.
        unfold skip_unavailable_of in Hskip.
        apply negb_true_iff, N.eqb_neq in Hskip. done.
Qed.

Lemma getMany_throws_or_empty_witness :
  let m := Scenario.process [0%nat] [Scenario.replica 0 0 0] 0 10 3 125 in
  let settings := Scenario.settings 2 1 in
  ∃ out m' ps,
    @getMany (Scenario.env [0%nat]) settings m = Some (out, m')
    ∧ probes m' = probes m ++ ps
    ∧ (out = Throw_length_error ↔ (@max_size (Scenario.env [0%nat]) < 2)%N)
    ∧ (out = Throw_length_error → m' = m ∧ ps = [])
    ∧ (∀ exn, out = Throw exn →
         1%N = 0%N
         ∧ Forall (λ p, probe_ok p = false) ps
         ∧ code exn = ALL_CONNECTION_TRIES_FAILED)
    ∧ (out = Return [] →
         ∃ s, settings = Some s
              ∧ (skip_unavailable_shards s ≠ 0%N ∨ max_parallel_replicas s = 0%N)).
Proof.
  intros m settings.
  apply (@getMany_throws_or_empty (Scenario.env [0%nat]) settings m).
  simpl. lia.
Defined.

(** X19. The counters over one call of [getMany], with a period that is not
    zero.  [DistributedConnectionFailTry] grows by the number of calls of
    [tryGet] that failed.  [DistributedConnectionFailAtAll] grows by one if
    [getMany] throws a [NetException] or returns fewer connections than
    [max_parallel_replicas], and stays as it is if it returns that many:
    [getMany] gives up at the first call of [getResource] that fails.  When
    [getMany] throws [std::length_error], no call was made and both counters
    are what they were. *)
Theorem getMany_counters `{Env : Environment}
    (settings : option Settings) (m : Process) :
  decrease_error_period (nested_pools m) ≠ 0 →
  ∃ out m' ps,
    getMany settings m = Some (out, m')
    ∧ probes m' = probes m ++ ps
    ∧ counters m' ProfileEvents.DistributedConnectionFailTry
      = (counters m ProfileEvents.DistributedConnectionFailTry
         + N.of_nat (length (filter (λ p, probe_ok p = false) ps)))%N
    ∧ (∀ exn, out = Throw exn →
         counters m' ProfileEvents.DistributedConnectionFailAtAll
         = (counters m ProfileEvents.DistributedConnectionFailAtAll + 1)%N)
    ∧ (out = Throw_length_error →
         ps = []
         ∧ counters m' ProfileEvents.DistributedConnectionFailAtAll
           = counters m ProfileEvents.DistributedConnectionFailAtAll)
    ∧ (∀ l, out = Return l →
         counters m' ProfileEvents.DistributedConnectionFailAtAll
         = (counters m ProfileEvents.DistributedConnectionFailAtAll
            + if (length l <? N.to_nat match settings with
                                       | Some s => max_parallel_replicas s
                                       | None => 1%N
                                       end)%nat
              then 1 else 0)%N).
Proof.
  intros Hperiod. unfold getMany.
  assert (Hmax : max_connections_of settings
                 = match settings with
                   | Some s => max_parallel_replicas s
                   | None => 1%N
                   end) by reflexivity.
  rewrite <- Hmax.
  destruct (max_size <? max_connections_of settings)%N.
  { exists Throw_length_error, m, []. rewrite app_nil_r. simpl.
    rewrite N.add_0_r. repeat split; done. }
  destruct (getMany_loop_outcome settings (skip_unavailable_of settings)
              (N.to_nat (max_connections_of settings)) 0
              (ResourceTracker.create (length (pools (nested_pools m)))) [] m)
    as (out & m' & ps & Hloop & Hp & Hc & Hthrow & Hret).
  - done.
  - unfold pool_handles. rewrite length_fmap. simpl. split; [done|lia].
  - assert (Hno : out ≠ Throw_length_error).
    { clear -Hloop. intros ->.
      by apply getMany_loop_no_length_error in Hloop. }
    exists out, m', ps. split; [done|]. split; [done|]. split; [done|].
    split; [|split; [done|]].
    + intros exn Hexn. by destruct (Hthrow exn Hexn) as (_ & _ & _ & _ & ?).
    + intros l Hl. destruct (Hret l Hl) as [-> Hcount]. simpl.
      rewrite length_fmap.
      destruct Hcount as [[Hn ->]|(Hn & -> & _)].
      * rewrite Hn, Nat.ltb_irrefl. lia.
      * apply Nat.ltb_lt in Hn. by rewrite Hn.
Qed.

Lemma getMany_counters_witness :
  let m := Scenario.process [2%nat]
             [Scenario.replica 0 0 5; Scenario.replica 1 0 0; Scenario.replica 2 (-1) 7]
             100 10 3 125 in
  let settings := Scenario.settings 5 0 in
  ∃ out m' ps,
    @getMany (Scenario.env [2%nat]) settings m = Some (out, m')
    ∧ probes m' = probes m ++ ps
    ∧ counters m' ProfileEvents.DistributedConnectionFailTry
      = (counters m ProfileEvents.DistributedConnectionFailTry
         + N.of_nat (length (filter (λ p, probe_ok p = false) ps)))%N
    ∧ (∀ exn, out = Throw exn →
         counters m' ProfileEvents.DistributedConnectionFailAtAll
         = (counters m ProfileEvents.DistributedConnectionFailAtAll + 1)%N)
    ∧ (out = Throw_length_error →
         ps = []
         ∧ counters m' ProfileEvents.DistributedConnectionFailAtAll
           = counters m ProfileEvents.DistributedConnectionFailAtAll)
    ∧ (∀ l, out = Return l →
         counters m' ProfileEvents.DistributedConnectionFailAtAll
         = (counters m ProfileEvents.DistributedConnectionFailAtAll
            + if (length l <? 5)%nat then 1 else 0)%N).
Proof.
  intros m settings.
  apply (@getMany_counters (Scenario.env [2%nat]) settings m).
  simpl. lia.
Defined.




